(** * Minesweeper knowledge-base agent (minesweeper.py): model and properties

    A shallow embedding of the classes [Minesweeper], [Sentence] and
    [MinesweeperAI] of [minesweeper.py].  Python sets of cells are finite sets
    [gset (Z * Z)], the knowledge base is a list of sentence objects, and every
    method of the agent is a function on an explicit agent state. *)

From Stdlib Require Import Ascii String ZArith Lia.
From stdpp Require Import base decidable option list sets gmap.

Open Scope Z_scope.

#[local] Set Warnings "-clear-no-such-hyp".

(** A cell is the Python tuple [(i, j)] of two integers. *)
Definition cell : Type := Z * Z.

(** [range(lo, hi)] of Python: the integers from [lo] up to [hi - 1]. *)
Definition range (lo hi : Z) : list Z :=
  map (fun k : nat => lo + Z.of_nat k) (seq 0 (Z.to_nat (hi - lo))).

(** ** class Sentence *)

Module Sentence.

(** A sentence object: its set of cells and its count.  [sid] stands for the
    identity of the Python object (what [is] compares); [__eq__] below does
    not look at it. *)
Record t : Type := mk { sid : nat; cells : gset cell; count : Z }.

(** [__eq__]: same cells and same count. *)
Definition eq (s other : t) : bool :=
  bool_decide (cells s = cells other) && (count s =? count other).

(** [s is other]. *)
Definition same_object (s other : t) : bool := Nat.eqb (sid s) (sid other).

(** [known_mines]: the cells when their number equals the count, else
    nothing ([None]). *)
Definition known_mines (s : t) : option (gset cell) :=
  if Z.of_nat (size (cells s)) =? count s then Some (cells s) else None.

(** [known_safes]: the cells when the count is 0, else nothing. *)
Definition known_safes (s : t) : option (gset cell) :=
  if count s =? 0 then Some (cells s) else None.

(** [mark_mine]: a known mine is removed and the count reduced by one. *)
Definition mark_mine (c : cell) (s : t) : t :=
  if bool_decide (c ∈ cells s)
  then mk (sid s) (cells s ∖ {[c]}) (count s - 1)
  else s.

(** [mark_safe]: a known safe cell is removed, the count stays. *)
Definition mark_safe (c : cell) (s : t) : t :=
  if bool_decide (c ∈ cells s)
  then mk (sid s) (cells s ∖ {[c]}) (count s)
  else s.

End Sentence.

(** Truth value of an optional set in [if safes:] : neither [None] nor empty. *)
Definition truthy (o : option (gset cell)) : bool :=
  match o with
  | Some s => negb (bool_decide (s = ∅))
  | None => false
  end.

(** [list.remove(x)] on a list of sentences: the first element that is [x] or
    equals [x] is dropped.  (Python raises ValueError when there is none; the
    callers below only remove an element they have just read from the list.) *)
Fixpoint list_remove_first (x : Sentence.t) (l : list Sentence.t) : list Sentence.t :=
  match l with
  | [] => []
  | e :: l' =>
      if Sentence.same_object e x || Sentence.eq e x then l'
      else e :: list_remove_first x l'
  end.

(** ** class MinesweeperAI *)

Module MinesweeperAI.

(** The fields of the agent.  [next_id] is the identity given to the next
    sentence object that is created. *)
Record t : Type := mk {
  height : Z;
  width : Z;
  moves_made : gset cell;
  mines : gset cell;
  safes : gset cell;
  knowledge : list Sentence.t;
  next_id : nat
}.

(** [__init__] *)
Definition init (height width : Z) : t :=
  mk height width ∅ ∅ ∅ [] 0.

Definition with_knowledge (k : list Sentence.t) (st : t) : t :=
  mk (height st) (width st) (moves_made st) (mines st) (safes st) k (next_id st).

(** [mark_mine] *)
Definition mark_mine (c : cell) (st : t) : t :=
  mk (height st) (width st) (moves_made st) ({[c]} ∪ mines st) (safes st)
     (map (Sentence.mark_mine c) (knowledge st)) (next_id st).

(** [mark_safe] *)
Definition mark_safe (c : cell) (st : t) : t :=
  mk (height st) (width st) (moves_made st) (mines st) ({[c]} ∪ safes st)
     (map (Sentence.mark_safe c) (knowledge st)) (next_id st).

(** [get_neighbors]: the two nested loops over [r] and [c]. *)
Definition in_bounds (st : t) (x y : Z) : bool :=
  (0 <=? x) && (x <? height st) && (0 <=? y) && (y <? width st).

Definition get_neighbors (st : t) (c : cell) : list cell :=
  let '(i, j) := c in
  flat_map (fun r =>
    flat_map (fun c =>
      let x := i - r in
      let y := j - c in
      if in_bounds st x y then [(x, y)] else [])
    (range (-1) 2))
  (range (-1) 2).

(** *** add_knowledge *)

(** Lines 199-203: the cell becomes a move made and is marked safe. *)
Definition record_move (c : cell) (st : t) : t :=
  mark_safe c
    (mk (height st) (width st) ({[c]} ∪ moves_made st) (mines st) (safes st)
        (knowledge st) (next_id st)).

(** [self.knowledge.append(Sentence(cells, count))]: a new object. *)
Definition append_sentence (cs : gset cell) (n : Z) (st : t) : t :=
  mk (height st) (width st) (moves_made st) (mines st) (safes st)
     (knowledge st ++ [Sentence.mk (next_id st) cs n]) (S (next_id st)).

(** Lines 209-211: the sentence built when [count > 0], from the neighbours
    that are not in [self.safes]. *)
Definition new_sentence_cells (st : t) (neighbors : list cell) : gset cell :=
  list_to_set (filter (fun n => n ∉ safes st) neighbors).

(** Lines 215-218: when [count == 0] every neighbour not yet safe is marked. *)
Definition mark_neighbors_safe (neighbors : list cell) (st : t) : t :=
  foldl (fun st n => if bool_decide (n ∈ safes st) then st else mark_safe n st)
        st neighbors.

(** Lines 199-218 together. *)
Definition observe (c : cell) (count : Z) (st : t) : t :=
  let st := record_move c st in
  let neighbors := get_neighbors st c in
  let st := if 0 <? count
            then append_sentence (new_sentence_cells st neighbors) count st
            else st in
  if count =? 0 then mark_neighbors_safe neighbors st else st.

(** [for cell in cells.copy(): self.mark_safe(cell)], and the same for
    mines. *)
Definition mark_all_safe (cs : gset cell) (st : t) : t :=
  foldl (fun st c => mark_safe c st) st (elements cs).

Definition mark_all_mines (cs : gset cell) (st : t) : t :=
  foldl (fun st c => mark_mine c st) st (elements cs).

(** One round of the loop of lines 225-236, for the sentence at index [i].
    The marks change the sentence objects in place, so the sentence is read
    again from the list before [known_mines] is asked. *)
Definition sweep_at (st : t) (i : nat) : t :=
  let st :=
    match knowledge st !! i with
    | Some sentence =>
        let safes := Sentence.known_safes sentence in
        if truthy safes then mark_all_safe (default ∅ safes) st else st
    | None => st
    end in
  match knowledge st !! i with
  | Some sentence =>
      let mines := Sentence.known_mines sentence in
      if truthy mines then mark_all_mines (default ∅ mines) st else st
  | None => st
  end.

(** Lines 225-236: the list keeps its length during the loop. *)
Definition sweep (st : t) : t :=
  foldl sweep_at st (seq 0 (length (knowledge st))).

(** *** deduce_knowledge *)

(** The cells and count of the sentence deduced from [sentence] and
    [subsentence], when the test of lines 320-322 passes. *)
Definition deduction (sentence subsentence : Sentence.t) : list (gset cell * Z) :=
  if negb (bool_decide (Sentence.cells subsentence = Sentence.cells sentence))
     && (0 <? Z.of_nat (size (Sentence.cells subsentence)))
  then
    if bool_decide (Sentence.cells subsentence ⊆ Sentence.cells sentence)
    then [( (Sentence.cells sentence ∖ Sentence.cells subsentence)
              ∪ (Sentence.cells subsentence ∖ Sentence.cells sentence),
            Sentence.count sentence - Sentence.count subsentence )]
    else []
  else [].

Definition deductions (k : list Sentence.t) : list (gset cell * Z) :=
  flat_map (fun sentence => flat_map (fun subsentence => deduction sentence subsentence) k) k.

Definition deduce_knowledge (st : t) : t :=
  foldl (fun st d => append_sentence (fst d) (snd d) st) st (deductions (knowledge st)).

(** *** clean_knowledge *)

(** The inner loop of lines 341-344.  A Python [for] over a list reads index
    [j], then [j + 1], and stops when the index reaches the current length;
    the list shrinks while the loop runs.  [fuel] bounds the number of
    rounds; the length of the list at the start is enough. *)
Fixpoint clean_inner (fuel : nat) (sentence : Sentence.t) (j : nat)
    (k : list Sentence.t) : list Sentence.t :=
  match fuel with
  | O => k
  | S fuel =>
      match k !! j with
      | None => k
      | Some duplicates =>
          let k :=
            if negb (Sentence.same_object duplicates sentence)
               && bool_decide (Sentence.cells sentence = Sentence.cells duplicates)
            then list_remove_first duplicates k
            else k in
          clean_inner fuel sentence (S j) k
      end
  end.

(** The outer loop of lines 335-344. *)
Fixpoint clean_outer (fuel : nat) (i : nat) (k : list Sentence.t) : list Sentence.t :=
  match fuel with
  | O => k
  | S fuel =>
      match k !! i with
      | None => k
      | Some sentence =>
          let k :=
            if Nat.eqb (size (Sentence.cells sentence)) 0
            then list_remove_first sentence k
            else k in
          let k := clean_inner (length k) sentence 0 k in
          clean_outer fuel (S i) k
      end
  end.

Definition clean_knowledge (st : t) : t :=
  with_knowledge (clean_outer (length (knowledge st)) 0 (knowledge st)) st.

(** *** add_knowledge, whole *)
Definition add_knowledge (c : cell) (count : Z) (st : t) : t :=
  let st := observe c count st in
  if (length (knowledge st) <? 1)%nat then st
  else clean_knowledge (deduce_knowledge (sweep st)).

(** *** make_safe_move

    [order] is the order in which Python iterates over the set [self.safes].
    The method assigns nothing; it returns its result and the state. *)
Definition make_safe_move (order : list cell) (st : t) : option cell * t :=
  if Nat.eqb (size (safes st)) (size (moves_made st)) then (None, st)
  else (head (filter (fun c => c ∉ moves_made st) order), st).

(** *** make_random_move

    [draws] are the pairs that the successive calls of [random.randrange]
    give, one pair for each round of the [while True] loop.  The loop has
    returned, or it is still running when the draws are used up, or
    [randrange] has raised ValueError on an empty range. *)
Inductive outcome : Type :=
| Returned (r : option cell)
| Raised
| Pending.

Fixpoint random_loop (st : t) (draws : list cell) : outcome :=
  match draws with
  | [] => Pending
  | move :: draws =>
      if bool_decide (move ∉ moves_made st) && bool_decide (move ∉ mines st)
      then Returned (Some move)
      else random_loop st draws
  end.

Definition make_random_move (draws : list cell) (st : t) : outcome * t :=
  let finished := width st * height st - Z.of_nat (size (mines st)) in
  if Z.of_nat (size (moves_made st)) =? finished then (Returned None, st)
  else if (height st <=? 0) || (width st <=? 0) then (Raised, st)
  else (random_loop st draws, st).

End MinesweeperAI.

(** ** class Minesweeper *)

Module Minesweeper.

(** The game: its dimensions and the board of booleans. *)
Record t : Type := mk { height : Z; width : Z; board : list (list bool) }.

(** [self.board[i][j]], for indices inside the board. *)
Definition board_at (g : t) (i j : Z) : bool :=
  match board g !! Z.to_nat i with
  | Some row => default false (row !! Z.to_nat j)
  | None => false
  end.

Definition is_mine (g : t) (c : cell) : bool := board_at g (fst c) (snd c).

(** [nearby_mines] *)
Definition nearby_mines (g : t) (c : cell) : Z :=
  foldl (fun count i =>
    foldl (fun count j =>
      if bool_decide ((i, j) = c) then count
      else if (0 <=? i) && (i <? height g) && (0 <=? j) && (j <? width g)
           then (if board_at g i j then count + 1 else count)
           else count)
      count (range (snd c - 1) (snd c + 2)))
    0 (range (fst c - 1) (fst c + 2)).

(** The board has [height] rows of [width] booleans, as [__init__] builds it. *)
Definition well_formed (g : t) : Prop :=
  Z.of_nat (length (board g)) = height g ∧
  Forall (fun row => Z.of_nat (length row) = width g) (board g).

End Minesweeper.

Import MinesweeperAI.

(** * Definitions for the properties *)

(** The nine candidates of the two loops, in the order the loops visit them. *)
Definition candidates (i j : Z) : list cell :=
  [ (i - -1, j - -1); (i - -1, j - 0); (i - -1, j - 1);
    (i - 0, j - -1); (i - 0, j - 0); (i - 0, j - 1);
    (i - 1, j - -1); (i - 1, j - 0); (i - 1, j - 1) ].

(** What a sentence says: its cells and its count, without the identity. *)
Definition content (s : Sentence.t) : gset cell * Z :=
  (Sentence.cells s, Sentence.count s).

(** All the pairs [(sentence, subsentence)] that the two loops of
    [deduce_knowledge] go through, in the order of the loops: a pair for every
    two places of the list. *)
Definition ordered_pairs (k : list Sentence.t) : list (Sentence.t * Sentence.t) :=
  flat_map (fun A => map (fun B => (A, B)) k) k.

(** The pair [(A, B)] yields a sentence: the cells of [B] are not empty and are
    some but not all of the cells of [A]. *)
Definition qualifying (p : Sentence.t * Sentence.t) : Prop :=
  Sentence.cells (snd p) ≠ ∅ ∧ Sentence.cells (snd p) ⊂ Sentence.cells (fst p).

#[global] Instance qualifying_dec (p : Sentence.t * Sentence.t) : Decision (qualifying p).
Proof. unfold qualifying. apply _. Defined.

(** The cells and the count of the sentence that the pair [(A, B)] yields. *)
Definition deduced (p : Sentence.t * Sentence.t) : gset cell * Z :=
  (Sentence.cells (fst p) ∖ Sentence.cells (snd p),
   Sentence.count (fst p) - Sentence.count (snd p)).

(** The agent after the observations [obs], given in the order of the calls
    of [add_knowledge]. *)
Definition run (h w : Z) (obs : list (cell * Z)) : MinesweeperAI.t :=
  foldl (fun st o => add_knowledge (fst o) (snd o) st) (init h w) obs.

(** What the game tells about the cell [c] of the board [g]. *)
Definition observation (g : Minesweeper.t) (c : cell) : cell * Z :=
  (c, Minesweeper.nearby_mines g c).

(** A 3 x 3 board with one mine in the middle. *)
Definition board_3x3 : Minesweeper.t :=
  Minesweeper.mk 3 3 [ [false; false; false]; [false; true; false]; [false; false; false] ].

(** A 2 x 3 board with mines at (0,0) and (0,2). *)
Definition board_2x3 : Minesweeper.t :=
  Minesweeper.mk 2 3 [ [true; false; true]; [false; false; false] ].

(** A 2 x 4 board with mines at (0,1), (1,0), (1,1) and (1,3). *)
Definition board_2x4 : Minesweeper.t :=
  Minesweeper.mk 2 4 [ [false; true; false; false]; [true; true; false; true] ].

(** A 1 x 3 board with mines at (0,0) and (0,1). *)
Definition board_1x3 : Minesweeper.t :=
  Minesweeper.mk 1 3 [ [true; true; false] ].

(** A 1 x 2 board with a mine at (0,1). *)
Definition board_1x2 : Minesweeper.t :=
  Minesweeper.mk 1 2 [ [false; true] ].

(** [grows st0 st]: from [st0] to [st] the grid and the moves made are the
    same, and no cell has left the known safe cells or the known mines. *)
Definition grows (st0 st : MinesweeperAI.t) : Prop :=
  height st = height st0 ∧ width st = width st0
  ∧ moves_made st = moves_made st0
  ∧ safes st0 ⊆ safes st ∧ mines st0 ⊆ mines st.

(** A draw that the loop of [make_random_move] throws away. *)
Definition rejected (st : MinesweeperAI.t) (d : cell) : Prop :=
  d ∈ moves_made st ∨ d ∈ mines st.

(** The cells of [cs] that hold a mine on the board [g]. *)
Definition mines_among (g : Minesweeper.t) (cs : gset cell) : gset cell :=
  filter (fun c => Minesweeper.is_mine g c = true) cs.

(** The sentence [s] is true on the board [g]: exactly [count] of its cells
    hold a mine. *)
Definition holds (g : Minesweeper.t) (s : Sentence.t) : Prop :=
  Z.of_nat (size (mines_among g (Sentence.cells s))) = Sentence.count s.

(** The agent's knowledge is true on the board [g]. *)
Definition sound (g : Minesweeper.t) (st : MinesweeperAI.t) : Prop :=
  height st = Minesweeper.height g ∧ width st = Minesweeper.width g
  ∧ (∀ c, c ∈ safes st → Minesweeper.is_mine g c = false)
  ∧ (∀ c, c ∈ mines st → Minesweeper.is_mine g c = true)
  ∧ Forall (holds g) (knowledge st).

(** The cell [c] can be observed on the board [g]: it is on the board and
    holds no mine. *)
Definition playable (g : Minesweeper.t) (c : cell) : Prop :=
  (0 ≤ fst c < Minesweeper.height g ∧ 0 ≤ snd c < Minesweeper.width g)
  ∧ Minesweeper.is_mine g c = false.

(** 1 when the cell [p] is on the board [g] and holds a mine, else 0. *)
Definition mine_at (g : Minesweeper.t) (p : cell) : Z :=
  if (0 <=? fst p) && (fst p <? Minesweeper.height g)
     && (0 <=? snd p) && (snd p <? Minesweeper.width g)
  then (if Minesweeper.board_at g (fst p) (snd p) then 1 else 0)
  else 0.

(** No cell of a sentence of the knowledge base is a known safe cell. *)
Definition safe_reduced (st : MinesweeperAI.t) : Prop :=
  ∀ s, s ∈ knowledge st → ∀ c, c ∈ Sentence.cells s → c ∉ safes st.

(** The cell [p] is on the board [g]. *)
Definition on_board (g : Minesweeper.t) (p : cell) : Prop :=
  0 ≤ fst p < Minesweeper.height g ∧ 0 ≤ snd p < Minesweeper.width g.

(** The cell [p] is within one row and one column of [c], and is not [c]. *)
Definition adjacent (c p : cell) : Prop :=
  p ≠ c ∧ fst c - 1 ≤ fst p ≤ fst c + 1 ∧ snd c - 1 ≤ snd p ≤ snd c + 1.

(** A 1 x 3 board with a mine at (0,2). *)
Definition board_1x3_end : Minesweeper.t :=
  Minesweeper.mk 1 3 [ [false; false; true] ].

(** The cells of a grid of [h] rows and [w] columns. *)
Definition grid_cells (h w : Z) : gset cell :=
  list_to_set (flat_map (fun i => map (fun j => (i, j)) (range 0 w)) (range 0 h)).

(** All the cells that the agent holds are cells of [G]. *)
Definition within (G : gset cell) (st : MinesweeperAI.t) : Prop :=
  moves_made st ⊆ G ∧ safes st ⊆ G ∧ mines st ⊆ G
  ∧ ∀ s, s ∈ knowledge st → Sentence.cells s ⊆ G.

(** The sentence [s'] is the sentence object [s] after marks: the same
    object, with some of its cells and a count that is not larger. *)
Definition reduced_from (s s' : Sentence.t) : Prop :=
  Sentence.sid s' = Sentence.sid s
  ∧ Sentence.cells s' ⊆ Sentence.cells s
  ∧ Sentence.count s' ≤ Sentence.count s.

(** The sentences of the knowledge base are different objects, all created
    before the next one to be created. *)
Definition distinct_objects (st : MinesweeperAI.t) : Prop :=
  NoDup (map Sentence.sid (knowledge st))
  ∧ Forall (fun s => (Sentence.sid s < next_id st)%nat) (knowledge st).

(** A 2 x 2 board with a mine at (1,1). *)
Definition board_2x2 : Minesweeper.t :=
  Minesweeper.mk 2 2 [ [false; false]; [false; true] ].

(** ** Minesweeper.__init__ *)

(** Lines 17-23: the field of [height] rows of [width] times [False]. *)
Definition empty_board (height width : Z) : list (list bool) :=
  map (fun _ => map (fun _ => false) (range 0 width)) (range 0 height).

(** [self.board[i][j] = True], for indices inside the board. *)
Definition set_mine (board : list (list bool)) (i j : Z) : list (list bool) :=
  match board !! Z.to_nat i with
  | Some row => <[Z.to_nat i := <[Z.to_nat j := true]> row]> board
  | None => board
  end.

(** What the constructor has done when the draws are used up: it has
    returned the game with its set [self.mines], or [randrange] has raised
    ValueError on an empty range, or the loop of lines 26-31 is still
    running. *)
Inductive construction : Type :=
| Built (g : Minesweeper.t) (mines : gset cell)
| BuildRaised
| BuildPending.

(** The loop of lines 26-31.  [draws] are the pairs [(i, j)] that the calls of
    [random.randrange] give, one pair for each round. *)
Fixpoint place_mines (height width mines : Z) (board : list (list bool))
    (placed : gset cell) (draws : list cell) {struct draws} : construction :=
  if Z.of_nat (size placed) =? mines
  then Built (Minesweeper.mk height width board) placed
  else if (height <=? 0) || (width <=? 0) then BuildRaised
  else match draws with
       | [] => BuildPending
       | (i, j) :: draws =>
           if Minesweeper.board_at (Minesweeper.mk height width board) i j
           then place_mines height width mines board placed draws
           else place_mines height width mines (set_mine board i j)
                  ({[(i, j)]} ∪ placed) draws
       end.

(** [Minesweeper(height, width, mines)] *)
Definition minesweeper_init (height width mines : Z) (draws : list cell) : construction :=
  place_mines height width mines (empty_board height width) ∅ draws.

(** [won]: [self.mines_found == self.mines]. *)
Definition won (mines_found mines : gset cell) : bool :=
  bool_decide (mines_found = mines).

(** The board and the set of mines say the same, inside a grid of [h] rows
    and [w] columns. *)
Definition board_agrees (h w : Z) (board : list (list bool)) (placed : gset cell) : Prop :=
  Minesweeper.well_formed (Minesweeper.mk h w board)
  ∧ placed ⊆ grid_cells h w
  ∧ ∀ i j, 0 ≤ i < h → 0 ≤ j < w →
           (Minesweeper.board_at (Minesweeper.mk h w board) i j = true ↔ (i, j) ∈ placed).

(** ** Minesweeper.print *)

(** [s * n] of Python on strings. *)
Fixpoint repeat_string (s : string) (n : nat) : string :=
  match n with
  | O => EmptyString
  | S n => String.append s (repeat_string s n)
  end.

(** The line ["--" * self.width + "-"]. *)
Definition rule_line (g : Minesweeper.t) : string :=
  String.append (repeat_string "--" (Z.to_nat (Minesweeper.width g))) "-".

(** The line of the row [i]: ["|X"] or ["| "] for each cell, printed without
    a line end, then ["|"]. *)
Definition row_line (g : Minesweeper.t) (i : Z) : string :=
  foldr (fun j rest =>
           String.append (if Minesweeper.board_at g i j then "|X" else "| ") rest)
        "|"%string (range 0 (Minesweeper.width g)).

(** [print]: the lines written, in order. *)
Definition print_lines (g : Minesweeper.t) : list string :=
  foldr (fun i rest => rule_line g :: row_line g i :: rest)
        [rule_line g] (range 0 (Minesweeper.height g)).

(** * Properties *)

(** ** get_neighbors *)

Section Neighbors.

Variable st : MinesweeperAI.t.

Lemma in_bounds_iff (x y : Z) :
  in_bounds st x y = true ↔ (0 ≤ x < height st ∧ 0 ≤ y < width st).
Proof. unfold in_bounds. rewrite !andb_true_iff. lia. Qed.

Lemma elem_of_guard (b : bool) (p q : cell) :
  q ∈ (if b then [p] else []) ↔ b = true ∧ q = p.
Proof.
  destruct b.
  - rewrite list_elem_of_singleton. intuition.
  - rewrite elem_of_nil. intuition discriminate.
Qed.

Lemma candidates_NoDup (i j : Z) : NoDup (candidates i j).
Proof.
  unfold candidates.
  repeat (apply NoDup_cons; split;
          [ rewrite ?elem_of_cons, elem_of_nil; intros H;
            repeat (destruct H as [H | H]; [ inversion H; lia | ]); exact H | ]).
  apply NoDup_nil; exact I.
Qed.

Lemma get_neighbors_sublist (i j : Z) :
  get_neighbors st (i, j) `sublist_of` candidates i j.
Proof.
  unfold get_neighbors, candidates.
  change (range (-1) 2) with [-1; 0; 1]. cbn [flat_map app].
  rewrite !app_nil_r.
  repeat match goal with
  | |- context [in_bounds st ?x ?y] => destruct (in_bounds st x y)
  end; cbn [app]; repeat first [ apply sublist_skip | apply sublist_cons ];
    try apply sublist_nil_l; try reflexivity.
Qed.

Lemma get_neighbors_elem (i j x y : Z) :
  (x, y) ∈ get_neighbors st (i, j) ↔
  in_bounds st x y = true ∧ i - 1 ≤ x ≤ i + 1 ∧ j - 1 ≤ y ≤ j + 1.
Proof.
  unfold get_neighbors.
  change (range (-1) 2) with [-1; 0; 1]. cbn [flat_map app].
  rewrite !elem_of_app, !elem_of_guard, elem_of_nil.
  split.
  - intros H. repeat destruct H as [H | H]; try contradiction;
      destruct H as [Hb H]; inversion H; subst; (split; [exact Hb | lia]).
  - intros (Hb & Hx & Hy).
    assert (x = i - -1 ∨ x = i - 0 ∨ x = i - 1) as Hx' by lia.
    assert (y = j - -1 ∨ y = j - 0 ∨ y = j - 1) as Hy' by lia.
    destruct Hx' as [-> | [-> | ->]]; destruct Hy' as [-> | [-> | ->]]; tauto.
Qed.

Lemma get_neighbors_length (i j : Z) :
  0 ≤ i < height st → 0 ≤ j < width st →
  Z.of_nat (length (get_neighbors st (i, j))) =
  (Z.min (i + 1) (height st - 1) - Z.max (i - 1) 0 + 1)
  * (Z.min (j + 1) (width st - 1) - Z.max (j - 1) 0 + 1).
Proof.
  intros Hi Hj. unfold get_neighbors, in_bounds.
  change (range (-1) 2) with [-1; 0; 1]. cbn [flat_map app].
  repeat (match goal with
          | |- context [?a <=? ?b] => destruct (Z.leb_spec a b)
          | |- context [?a <? ?b] => destruct (Z.ltb_spec a b)
          end; try (exfalso; lia));
    cbn [andb app length];
    repeat match goal with
           | |- context [Z.min ?a ?b] => destruct (Z.min_spec a b) as [[? ->] | [? ->]]
           | |- context [Z.max ?a ?b] => destruct (Z.max_spec a b) as [[? ->] | [? ->]]
           end; nia.
Qed.

End Neighbors.

(** The results of [get_neighbors] on the 3 x 3 grid: the corner (0,0) is among
    its own neighbours and has 4 of them, the edge cell (0,1) has 6 and the
    interior cell (1,1) has 9. *)
Lemma get_neighbors_counterexample :
  in_bounds (init 3 3) 0 0 = true
  ∧ (0, 0) ∈ get_neighbors (init 3 3) (0, 0)
  ∧ length (get_neighbors (init 3 3) (0, 0)) = 4%nat
  ∧ length (get_neighbors (init 3 3) (0, 1)) = 6%nat
  ∧ length (get_neighbors (init 3 3) (1, 1)) = 9%nat.
Proof.
  split; [reflexivity |]. split; [| repeat split; reflexivity].
  apply get_neighbors_elem. split; [reflexivity | lia].
Qed.

(** C3 fails on the code: [get_neighbors] does not leave out the cell itself
    (the loops have no test for [r = 0] and [c = 0], unlike those of
    [Minesweeper.nearby_mines]).  What it returns for an in-bounds cell is,
    without repetition, exactly the in-bounds coordinates within one row and
    one column of the cell, the cell itself included: 4 coordinates for a
    corner, 6 for an edge cell that is not a corner, 9 for an interior cell
    (on a grid with at least two rows and two columns), where the claim says
    3, 5 and 8. *)
Theorem get_neighbors_clipped (st : MinesweeperAI.t) (i j : Z) :
  in_bounds st i j = true →
  (∀ x y, (x, y) ∈ get_neighbors st (i, j) ↔
          in_bounds st x y = true ∧ i - 1 ≤ x ≤ i + 1 ∧ j - 1 ≤ y ≤ j + 1)
  ∧ NoDup (get_neighbors st (i, j))
  ∧ (i, j) ∈ get_neighbors st (i, j)
  ∧ (2 ≤ height st → 2 ≤ width st →
     (i = 0 ∨ i = height st - 1) → (j = 0 ∨ j = width st - 1) →
     length (get_neighbors st (i, j)) = 4%nat)
  ∧ (2 ≤ height st → 2 ≤ width st →
     ((i = 0 ∨ i = height st - 1) ∧ 0 < j < width st - 1)
     ∨ (0 < i < height st - 1 ∧ (j = 0 ∨ j = width st - 1)) →
     length (get_neighbors st (i, j)) = 6%nat)
  ∧ (0 < i < height st - 1 → 0 < j < width st - 1 →
     length (get_neighbors st (i, j)) = 9%nat).
Proof.
  intros Hin. pose proof Hin as Hb. apply in_bounds_iff in Hb as [Hi Hj].
  pose proof (get_neighbors_length st i j Hi Hj) as Hlen.
  split; [intros x y; apply get_neighbors_elem |].
  split; [exact (sublist_NoDup _ _ (candidates_NoDup i j) (get_neighbors_sublist st i j)) |].
  split; [apply get_neighbors_elem; split; [exact Hin | lia] |].
  repeat split; intros; nia.
Qed.

Lemma get_neighbors_clipped_witness :
  in_bounds (init 3 3) 1 1 = true
  ∧ length (get_neighbors (init 3 3) (1, 1)) = 9%nat.
Proof.
  split; [reflexivity |].
  pose proof (get_neighbors_clipped (init 3 3) 1 1 eq_refl) as (_ & _ & _ & _ & _ & H).
  apply H; simpl; lia.
Defined.

(** ** The sentence built by add_knowledge *)

Lemma knowledge_record_move (c : cell) (st : MinesweeperAI.t) :
  knowledge (record_move c st) = map (Sentence.mark_safe c) (knowledge st).
Proof. reflexivity. Qed.

Lemma safes_record_move (c : cell) (st : MinesweeperAI.t) :
  safes (record_move c st) = {[c]} ∪ safes st.
Proof. reflexivity. Qed.

Lemma elem_of_new_sentence_cells (st : MinesweeperAI.t) (ns : list cell) (n : cell) :
  n ∈ new_sentence_cells st ns ↔ n ∈ ns ∧ n ∉ safes st.
Proof.
  unfold new_sentence_cells. rewrite elem_of_list_to_set, list_elem_of_filter. tauto.
Qed.

(** C10: when [count > 0], [add_knowledge(cell, count)] appends one sentence,
    with that count, whose cells are the neighbours of [cell] that are not in
    [self.safes]; [cell] has just been marked safe, so it is not among them,
    although [get_neighbors] lists an in-bounds cell among its own
    neighbours. *)
Theorem new_sentence_excludes_cell (st : MinesweeperAI.t) (c : cell) (count : Z) :
  0 < count →
  ∃ s : Sentence.t,
    knowledge (observe c count st) = map (Sentence.mark_safe c) (knowledge st) ++ [s]
    ∧ Sentence.count s = count
    ∧ (∀ n, n ∈ Sentence.cells s ↔ n ∈ get_neighbors st c ∧ (n ∉ {[c]} ∪ safes st))
    ∧ (c ∉ Sentence.cells s)
    ∧ (in_bounds st (fst c) (snd c) = true → c ∈ get_neighbors st c).
Proof.
  intros Hpos. unfold observe.
  assert ((0 <? count) = true) as -> by lia.
  assert ((count =? 0) = false) as -> by lia.
  eexists. split; [reflexivity |]. split; [reflexivity |].
  cbn [Sentence.cells].
  assert (∀ n, n ∈ new_sentence_cells (record_move c st) (get_neighbors (record_move c st) c)
               ↔ n ∈ get_neighbors st c ∧ (n ∉ {[c]} ∪ safes st)) as Hcells.
  { intros n. rewrite elem_of_new_sentence_cells. reflexivity. }
  split; [exact Hcells |]. split.
  - rewrite Hcells. intros [_ H]. apply H, elem_of_union_l, elem_of_singleton.
    reflexivity.
  - destruct c as [i j]. cbn [fst snd]. intros Hin.
    apply get_neighbors_elem. split; [exact Hin | lia].
Qed.

Lemma new_sentence_excludes_cell_witness :
  ∃ s : Sentence.t,
    knowledge (observe (0, 0) 1 (init 3 3)) = map (Sentence.mark_safe (0, 0)) [] ++ [s]
    ∧ Sentence.count s = 1
    ∧ (∀ n, n ∈ Sentence.cells s ↔
            n ∈ get_neighbors (init 3 3) (0, 0) ∧ (n ∉ ({[(0, 0)]} ∪ ∅ : gset cell)))
    ∧ ((0, 0) ∉ Sentence.cells s)
    ∧ (in_bounds (init 3 3) 0 0 = true → (0, 0) ∈ get_neighbors (init 3 3) (0, 0)).
Proof. apply (new_sentence_excludes_cell (init 3 3) (0, 0) 1). lia. Defined.

(** ** deduce_knowledge *)

Section Deduce.

Lemma append_all_knowledge (ds : list (gset cell * Z)) (st : MinesweeperAI.t) :
  ∃ new : list Sentence.t,
    knowledge (foldl (fun st d => append_sentence (fst d) (snd d) st) st ds)
    = knowledge st ++ new
    ∧ map content new = ds.
Proof.
  revert st. induction ds as [| d ds IH]; intros st.
  - exists []. split; [symmetry; apply app_nil_r | reflexivity].
  - cbn [foldl]. destruct (IH (append_sentence (fst d) (snd d) st)) as (new & Hk & Hc).
    exists (Sentence.mk (next_id st) (fst d) (snd d) :: new). split.
    + rewrite Hk. cbn [append_sentence knowledge]. rewrite <- app_assoc. reflexivity.
    + cbn [map]. rewrite Hc. destruct d; reflexivity.
Qed.

Lemma append_all_fields (ds : list (gset cell * Z)) (st : MinesweeperAI.t) :
  let st' := foldl (fun st d => append_sentence (fst d) (snd d) st) st ds in
  height st' = height st ∧ width st' = width st ∧ moves_made st' = moves_made st
  ∧ mines st' = mines st ∧ safes st' = safes st.
Proof.
  revert st. induction ds as [| d ds IH]; intros st; cbn [foldl].
  - repeat split.
  - apply (IH (append_sentence (fst d) (snd d) st)).
Qed.

Lemma elem_of_deduction (A B : Sentence.t) (cs : gset cell) (n : Z) :
  (cs, n) ∈ deduction A B ↔
  Sentence.cells B ≠ ∅ ∧ Sentence.cells B ⊂ Sentence.cells A
  ∧ cs = Sentence.cells A ∖ Sentence.cells B
  ∧ n = Sentence.count A - Sentence.count B.
Proof.
  unfold deduction.
  destruct (decide (Sentence.cells B = Sentence.cells A)) as [He | Hne].
  - rewrite (bool_decide_eq_true_2 _ He). cbn [negb andb]. rewrite elem_of_nil.
    split; [tauto |]. intros (_ & [_ Hs] & _). apply Hs. rewrite He. reflexivity.
  - rewrite (bool_decide_eq_false_2 _ Hne). cbn [negb andb].
    assert ((0 <? Z.of_nat (size (Sentence.cells B))) = true ↔ Sentence.cells B ≠ ∅) as Hsz.
    { rewrite Z.ltb_lt. pose proof (size_empty_iff (Sentence.cells B)) as He.
      unfold_leibniz. split.
      - intros Hlt Hemp. apply He in Hemp. lia.
      - intros Hemp. destruct (size (Sentence.cells B)) eqn:E; [| lia].
        exfalso. apply Hemp, He. reflexivity. }
    destruct (0 <? Z.of_nat (size (Sentence.cells B))) eqn:Epos.
    + destruct (decide (Sentence.cells B ⊆ Sentence.cells A)) as [Hsub | Hnsub].
      * rewrite (bool_decide_eq_true_2 _ Hsub), list_elem_of_singleton.
        assert (Sentence.cells A ∖ Sentence.cells B ∪ Sentence.cells B ∖ Sentence.cells A
                = Sentence.cells A ∖ Sentence.cells B) as -> by set_solver.
        split.
        -- intros [= -> ->]. split; [apply Hsz; reflexivity |].
           split; [| split; reflexivity].
           split; [exact Hsub |]. intros Hsup. apply Hne. set_solver.
        -- intros (_ & _ & -> & ->). reflexivity.
      * rewrite (bool_decide_eq_false_2 _ Hnsub), elem_of_nil.
        split; [tauto |]. intros (_ & [Hs _] & _). exact (Hnsub Hs).
    + rewrite elem_of_nil. split; [tauto |].
      intros (Hemp & _). apply Hsz in Hemp. discriminate.
Qed.

Lemma elem_of_deductions (k : list Sentence.t) (cs : gset cell) (n : Z) :
  (cs, n) ∈ deductions k ↔
  ∃ A B, A ∈ k ∧ B ∈ k
         ∧ Sentence.cells B ≠ ∅ ∧ Sentence.cells B ⊂ Sentence.cells A
         ∧ cs = Sentence.cells A ∖ Sentence.cells B
         ∧ n = Sentence.count A - Sentence.count B.
Proof.
  unfold deductions. rewrite list_elem_of_In, in_flat_map. split.
  - intros (A & HA & HB). apply in_flat_map in HB as (B & HB & Hd).
    exists A, B. rewrite <- !list_elem_of_In in *.
    split; [exact HA |]. split; [exact HB |]. apply elem_of_deduction. exact Hd.
  - intros (A & B & HA & HB & Hd). exists A. rewrite <- list_elem_of_In.
    split; [exact HA |]. apply in_flat_map. exists B. rewrite <- !list_elem_of_In.
    split; [exact HB |]. apply elem_of_deduction. exact Hd.
Qed.

(** The test of lines 320-322 passes exactly for the qualifying pairs. *)
Lemma deduction_cases (A B : Sentence.t) :
  deduction A B = if decide (qualifying (A, B)) then [deduced (A, B)] else [].
Proof.
  destruct (decide (qualifying (A, B))) as [Hq | Hq].
  - assert (deduced (A, B) ∈ deduction A B) as Hin.
    { apply elem_of_deduction. destruct Hq as [Hne Hsub]. cbn in Hne, Hsub.
      repeat split; try assumption; apply Hsub. }
    unfold deduction in *.
    destruct (_ && _); [| apply elem_of_nil in Hin; contradiction].
    destruct (bool_decide _); [| apply elem_of_nil in Hin; contradiction].
    apply list_elem_of_singleton in Hin. rewrite <- Hin. reflexivity.
  - destruct (deduction A B) as [| [cs n] l] eqn:E; [reflexivity |].
    exfalso. apply Hq.
    assert ((cs, n) ∈ deduction A B) as Hin by (rewrite E; apply elem_of_cons; left; reflexivity).
    apply elem_of_deduction in Hin as (Hne & Hsub & _). split; assumption.
Qed.

Lemma deductions_inner (A : Sentence.t) (k : list Sentence.t) :
  flat_map (fun B => deduction A B) k
  = map deduced (filter qualifying (map (fun B => (A, B)) k)).
Proof.
  induction k as [| B k IH]; cbn [flat_map map]; [reflexivity |].
  rewrite filter_cons, IH, deduction_cases.
  destruct (decide (qualifying (A, B))); reflexivity.
Qed.

(** The deductions are the differences of the qualifying pairs, one for each
    pair, in the order of the loops. *)
Lemma deductions_by_pairs (k : list Sentence.t) :
  deductions k = map deduced (filter qualifying (ordered_pairs k)).
Proof.
  unfold deductions, ordered_pairs.
  generalize k at 2 4. intros l.
  induction l as [| A l IH]; cbn [flat_map]; [reflexivity |].
  rewrite filter_app, map_app, IH, deductions_inner. reflexivity.
Qed.

(** The new sentence objects get the next identities, in order. *)
Lemma append_all_sids (ds : list (gset cell * Z)) (st : MinesweeperAI.t) :
  ∃ new : list Sentence.t,
    knowledge (foldl (fun st d => append_sentence (fst d) (snd d) st) st ds)
    = knowledge st ++ new
    ∧ map content new = ds
    ∧ map Sentence.sid new = seq (next_id st) (length ds).
Proof.
  revert st. induction ds as [| d ds IH]; intros st.
  - exists []. split; [symmetry; apply app_nil_r |]. split; reflexivity.
  - cbn [foldl]. destruct (IH (append_sentence (fst d) (snd d) st)) as (new & Hk & Hc & Hi).
    exists (Sentence.mk (next_id st) (fst d) (snd d) :: new). split; [| split].
    + rewrite Hk. cbn [append_sentence knowledge]. rewrite <- app_assoc. reflexivity.
    + cbn [map]. rewrite Hc. destruct d; reflexivity.
    + cbn [map length seq Sentence.sid]. rewrite Hi. reflexivity.
Qed.

(** The sentences that [deduce_knowledge] adds have their cells among those
    of a sentence that was there. *)
Lemma deduce_knowledge_parts (st : MinesweeperAI.t) :
  ∃ new : list Sentence.t,
    knowledge (deduce_knowledge st) = knowledge st ++ new
    ∧ (∀ s, s ∈ new → ∃ A, A ∈ knowledge st ∧ Sentence.cells s ⊆ Sentence.cells A)
    ∧ safes (deduce_knowledge st) = safes st.
Proof.
  unfold deduce_knowledge.
  destruct (append_all_knowledge (deductions (knowledge st)) st) as (new & Hk & Hc).
  destruct (append_all_fields (deductions (knowledge st)) st) as (_ & _ & _ & _ & Hs).
  exists new. split; [exact Hk |]. split; [| exact Hs].
  intros s Hin.
  assert (content s ∈ deductions (knowledge st)) as Hd.
  { rewrite <- Hc. apply list_elem_of_fmap. exists s. split; [reflexivity | exact Hin]. }
  unfold content in Hd.
  apply elem_of_deductions in Hd as (A & B & HA & _ & _ & _ & Hcs & _).
  exists A. split; [exact HA |]. rewrite Hcs. apply subseteq_difference_l. reflexivity.
Qed.

End Deduce.

(** C4, as stated, fails: two different sentence objects with the same
    non-empty cells (and the same count) are both in the knowledge base, and
    [deduce_knowledge] adds nothing, no sentence with empty cells either. *)
Lemma deduce_equal_cells_counterexample :
  let A := Sentence.mk 0 {[ (0, 0); (0, 1) ]} 1 in
  let B := Sentence.mk 1 {[ (0, 0); (0, 1) ]} 1 in
  let st := with_knowledge [A; B] (init 3 3) in
  Sentence.same_object A B = false
  ∧ Sentence.cells B ⊆ Sentence.cells A
  ∧ size (Sentence.cells B) = 2%nat
  ∧ knowledge (deduce_knowledge st) = [A; B].
Proof.
  cbv zeta. split; [reflexivity |]. split; [reflexivity |].
  split; vm_compute; reflexivity.
Qed.

(** C4 (amended): [deduce_knowledge] keeps the sentences of the knowledge base
    and appends new sentence objects after them (it changes nothing else):
    one for every ordered pair [(A, B)] of sentences of the knowledge base
    such that [B.cells] is non-empty and a strict subset of [A.cells], with
    cells [A.cells \ B.cells] and count [A.count - B.count], in the order in
    which the two loops meet the pairs, and no other.  A pair with equal cell
    sets yields no sentence. *)
Theorem deduce_knowledge_spec (st : MinesweeperAI.t) :
  ∃ new : list Sentence.t,
    knowledge (deduce_knowledge st) = knowledge st ++ new
    ∧ map content new
      = map deduced (filter qualifying (ordered_pairs (knowledge st)))
    ∧ map Sentence.sid new = seq (next_id st) (length new)
    ∧ (∀ cs n, (cs, n) ∈ map content new ↔
         ∃ A B, A ∈ knowledge st ∧ B ∈ knowledge st
                ∧ Sentence.cells B ≠ ∅ ∧ Sentence.cells B ⊂ Sentence.cells A
                ∧ cs = Sentence.cells A ∖ Sentence.cells B
                ∧ n = Sentence.count A - Sentence.count B)
    ∧ moves_made (deduce_knowledge st) = moves_made st
    ∧ mines (deduce_knowledge st) = mines st
    ∧ safes (deduce_knowledge st) = safes st.
Proof.
  unfold deduce_knowledge.
  destruct (append_all_sids (deductions (knowledge st)) st) as (new & Hk & Hc & Hi).
  destruct (append_all_fields (deductions (knowledge st)) st) as (_ & _ & Hm & Hmi & Hs).
  exists new. split; [exact Hk |].
  split; [rewrite Hc; apply deductions_by_pairs |].
  split.
  { rewrite Hi. f_equal. rewrite <- Hc. apply length_map. }
  split; [| auto].
  intros cs n. rewrite Hc. apply elem_of_deductions.
Qed.

(** ** Runs of the agent on fixed boards *)

(** C5 fails on the code (the loops of [clean_knowledge] remove from the list
    they iterate over, and skip elements): on the 3 x 3 board with one mine in
    the middle, the third call of [add_knowledge] reaches [clean_knowledge]
    with four sentences without cells, and one of them is left. *)
Theorem clean_knowledge_leaves_empty_sentence :
  let obs := map (observation board_3x3) [(0, 0); (0, 1)] in
  let before := deduce_knowledge (sweep (observe (1, 0) 1 (run 3 3 obs))) in
  observation board_3x3 (1, 0) = ((1, 0), 1)
  ∧ map content (knowledge before) = [(∅, 0); (∅, 0); (∅, 0); (∅, 0)]
  ∧ knowledge (clean_knowledge before) = [Sentence.mk 3 ∅ 0]
  ∧ knowledge (run 3 3 (obs ++ [observation board_3x3 (1, 0)])) = [Sentence.mk 3 ∅ 0].
Proof. cbv zeta. repeat split; vm_compute; reflexivity. Qed.


(** ** add_knowledge: one sweep, then deduction, then cleanup *)




(** ** What the operations keep *)

(** A property kept by every round of a loop holds after the loop. *)
Lemma foldl_preserves {A B : Type} (I : A → Prop) (f : A → B → A) (l : list B) (a : A) :
  (∀ a' x, x ∈ l → I a' → I (f a' x)) → I a → I (foldl f a l).
Proof.
  revert a. induction l as [| x l IH]; intros a Hstep Ha; [exact Ha |].
  cbn [foldl]. apply IH.
  - intros a' y Hy. apply Hstep. apply elem_of_cons. right. exact Hy.
  - apply Hstep; [apply elem_of_cons; left; reflexivity | exact Ha].
Qed.

Section Grows.

Lemma grows_refl (st : MinesweeperAI.t) : grows st st.
Proof. unfold grows. repeat split; reflexivity. Qed.

Lemma grows_trans (st0 st1 st2 : MinesweeperAI.t) :
  grows st0 st1 → grows st1 st2 → grows st0 st2.
Proof.
  unfold grows. intros (Hh & Hw & Hm & Hs & Hmi) (Hh' & Hw' & Hm' & Hs' & Hmi').
  repeat split; try congruence; etransitivity; eassumption.
Qed.

Lemma grows_mark_safe (c : cell) (st : MinesweeperAI.t) : grows st (mark_safe c st).
Proof.
  unfold grows. cbn. repeat split; try reflexivity. apply union_subseteq_r.
Qed.

Lemma grows_mark_mine (c : cell) (st : MinesweeperAI.t) : grows st (mark_mine c st).
Proof.
  unfold grows. cbn. repeat split; try reflexivity. apply union_subseteq_r.
Qed.

Lemma grows_append_sentence (cs : gset cell) (n : Z) (st : MinesweeperAI.t) :
  grows st (append_sentence cs n st).
Proof. unfold grows. cbn. repeat split; reflexivity. Qed.

Lemma grows_with_knowledge (k : list Sentence.t) (st : MinesweeperAI.t) :
  grows st (with_knowledge k st).
Proof. unfold grows. cbn. repeat split; reflexivity. Qed.

Lemma grows_foldl {B : Type} (f : MinesweeperAI.t → B → MinesweeperAI.t) (l : list B)
    (st : MinesweeperAI.t) :
  (∀ st' x, grows st' (f st' x)) → grows st (foldl f st l).
Proof.
  intros Hf. apply (foldl_preserves (grows st)); [| apply grows_refl].
  intros st' x _ Hst'. eapply grows_trans; [exact Hst' | apply Hf].
Qed.

Lemma grows_mark_all_safe (cs : gset cell) (st : MinesweeperAI.t) :
  grows st (mark_all_safe cs st).
Proof. apply grows_foldl. intros st' x. apply grows_mark_safe. Qed.

Lemma grows_mark_all_mines (cs : gset cell) (st : MinesweeperAI.t) :
  grows st (mark_all_mines cs st).
Proof. apply grows_foldl. intros st' x. apply grows_mark_mine. Qed.

Lemma grows_mark_neighbors_safe (ns : list cell) (st : MinesweeperAI.t) :
  grows st (mark_neighbors_safe ns st).
Proof.
  apply grows_foldl. intros st' x.
  destruct (bool_decide (x ∈ safes st')); [apply grows_refl | apply grows_mark_safe].
Qed.

Lemma grows_sweep_at (st : MinesweeperAI.t) (i : nat) : grows st (sweep_at st i).
Proof.
  unfold sweep_at.
  set (st1 := match knowledge st !! i with
              | Some sentence => _
              | None => st
              end).
  assert (grows st st1) as H1.
  { subst st1. destruct (knowledge st !! i) as [s |]; [| apply grows_refl].
    destruct (truthy (Sentence.known_safes s));
      [apply grows_mark_all_safe | apply grows_refl]. }
  eapply grows_trans; [exact H1 |].
  destruct (knowledge st1 !! i) as [s |]; [| apply grows_refl].
  destruct (truthy (Sentence.known_mines s));
    [apply grows_mark_all_mines | apply grows_refl].
Qed.

Lemma grows_sweep (st : MinesweeperAI.t) : grows st (sweep st).
Proof. apply grows_foldl. apply grows_sweep_at. Qed.

Lemma grows_deduce_knowledge (st : MinesweeperAI.t) : grows st (deduce_knowledge st).
Proof. apply grows_foldl. intros st' d. apply grows_append_sentence. Qed.

Lemma grows_clean_knowledge (st : MinesweeperAI.t) : grows st (clean_knowledge st).
Proof. apply grows_with_knowledge. Qed.

(** After the first two statements of [add_knowledge], the rest only grows
    the known sets. *)
Lemma grows_observe (c : cell) (n : Z) (st : MinesweeperAI.t) :
  grows (record_move c st) (observe c n st).
Proof.
  unfold observe.
  eapply grows_trans with
    (st1 := if 0 <? n
            then append_sentence
                   (new_sentence_cells (record_move c st)
                      (get_neighbors (record_move c st) c)) n (record_move c st)
            else record_move c st).
  - destruct (0 <? n); [apply grows_append_sentence | apply grows_refl].
  - destruct (n =? 0); [apply grows_mark_neighbors_safe | apply grows_refl].
Qed.

Lemma grows_add_knowledge (c : cell) (n : Z) (st : MinesweeperAI.t) :
  grows (record_move c st) (add_knowledge c n st).
Proof.
  unfold add_knowledge.
  destruct (length (knowledge (observe c n st)) <? 1)%nat; [apply grows_observe |].
  eapply grows_trans; [apply grows_observe |].
  eapply grows_trans; [apply grows_sweep |].
  eapply grows_trans; [apply grows_deduce_knowledge | apply grows_clean_knowledge].
Qed.

End Grows.

(** ** Moves made and safe cells *)

Section MovesAndSafes.

Lemma add_knowledge_moves_made (c : cell) (n : Z) (st : MinesweeperAI.t) :
  moves_made (add_knowledge c n st) = {[c]} ∪ moves_made st.
Proof. destruct (grows_add_knowledge c n st) as (_ & _ & Hm & _). exact Hm. Qed.

Lemma add_knowledge_safes (c : cell) (n : Z) (st : MinesweeperAI.t) :
  {[c]} ∪ safes st ⊆ safes (add_knowledge c n st).
Proof. destruct (grows_add_knowledge c n st) as (_ & _ & _ & Hs & _). exact Hs. Qed.

Lemma add_knowledge_keeps_subset (c : cell) (n : Z) (st : MinesweeperAI.t) :
  moves_made st ⊆ safes st →
  moves_made (add_knowledge c n st) ⊆ safes (add_knowledge c n st).
Proof.
  intros Hsub. rewrite add_knowledge_moves_made.
  etransitivity; [| apply add_knowledge_safes].
  apply union_mono_l. exact Hsub.
Qed.

Lemma run_moves_subset_safes (h w : Z) (obs : list (cell * Z)) :
  moves_made (run h w obs) ⊆ safes (run h w obs).
Proof.
  unfold run.
  apply (foldl_preserves (fun st => moves_made st ⊆ safes st)).
  - intros st o _ Hst. apply add_knowledge_keeps_subset. exact Hst.
  - reflexivity.
Qed.

Lemma same_size_same_set (st : MinesweeperAI.t) :
  moves_made st ⊆ safes st →
  size (safes st) = size (moves_made st) →
  safes st = moves_made st.
Proof.
  intros Hsub Hsize. symmetry. apply set_subseteq_size_eq; [exact Hsub |].
  rewrite Hsize. reflexivity.
Qed.

(** The cell that [make_safe_move] finds in its loop. *)
Lemma head_filter_Some (order : list cell) (st : MinesweeperAI.t) (c : cell) :
  head (filter (fun c => c ∉ moves_made st) order) = Some c →
  c ∈ order ∧ c ∉ moves_made st.
Proof.
  intros H. apply head_Some in H as [l' Hl].
  assert (c ∈ filter (fun c => c ∉ moves_made st) order) as Hc.
  { rewrite Hl. apply elem_of_cons. left. reflexivity. }
  apply list_elem_of_filter in Hc. tauto.
Qed.

Lemma head_filter_None (order : list cell) (st : MinesweeperAI.t) :
  head (filter (fun c => c ∉ moves_made st) order) = None →
  ∀ c, c ∈ order → c ∈ moves_made st.
Proof.
  intros H c Hc. apply head_None in H.
  destruct (decide (c ∈ moves_made st)) as [Hin | Hnin]; [exact Hin |].
  assert (c ∈ filter (fun c => c ∉ moves_made st) order) as Hf.
  { apply list_elem_of_filter. split; assumption. }
  rewrite H in Hf. apply elem_of_nil in Hf. contradiction.
Qed.

(** [make_safe_move] on a state where every move made is a safe cell. *)
Lemma make_safe_move_result (order : list cell) (st : MinesweeperAI.t) :
  moves_made st ⊆ safes st →
  order ≡ₚ elements (safes st) →
  match fst (make_safe_move order st) with
  | Some c => c ∈ safes st ∧ c ∉ moves_made st
  | None => ∀ c, c ∈ safes st → c ∈ moves_made st
  end.
Proof.
  intros Hsub Hperm. unfold make_safe_move.
  destruct (Nat.eqb_spec (size (safes st)) (size (moves_made st))) as [Hsize | Hsize];
    cbn [fst].
  - intros c Hc. rewrite (same_size_same_set st Hsub Hsize) in Hc. exact Hc.
  - destruct (head (filter (fun c => c ∉ moves_made st) order)) as [c |] eqn:Hhead.
    + apply head_filter_Some in Hhead as [Hc Hnot]. split; [| exact Hnot].
      rewrite Hperm in Hc. apply elem_of_elements in Hc. exact Hc.
    + intros c Hc. apply (head_filter_None order st Hhead).
      rewrite Hperm. apply elem_of_elements. exact Hc.
Qed.

End MovesAndSafes.

(** C9: every move made is a known safe cell.  This holds at [__init__];
    [add_knowledge] adds its cell to both sets; no operation removes a cell
    from [self.safes] (nor from [self.moves_made]); so it holds after any
    calls.  Then equal sizes mean equal sets, and the early return of
    [make_safe_move] is taken only when no safe cell is left to play. *)
Theorem moves_made_subset_safes :
  (∀ h w, moves_made (init h w) ⊆ safes (init h w))
  ∧ (∀ c n st, moves_made (add_knowledge c n st) = {[c]} ∪ moves_made st
               ∧ c ∈ safes (add_knowledge c n st)
               ∧ safes st ⊆ safes (add_knowledge c n st))
  ∧ (∀ c st, safes st ⊆ safes (mark_safe c st) ∧ safes st ⊆ safes (mark_mine c st))
  ∧ (∀ st, safes st ⊆ safes (sweep st) ∧ safes st ⊆ safes (deduce_knowledge st)
           ∧ safes st ⊆ safes (clean_knowledge st))
  ∧ (∀ order draws st, snd (make_safe_move order st) = st
                       ∧ snd (make_random_move draws st) = st)
  ∧ (∀ c n st, moves_made st ⊆ safes st →
               moves_made (add_knowledge c n st) ⊆ safes (add_knowledge c n st))
  ∧ (∀ h w obs, moves_made (run h w obs) ⊆ safes (run h w obs))
  ∧ (∀ st, moves_made st ⊆ safes st → size (safes st) = size (moves_made st) →
           safes st = moves_made st)
  ∧ (∀ order st, moves_made st ⊆ safes st → size (safes st) = size (moves_made st) →
                 fst (make_safe_move order st) = None
                 ∧ ∀ c, c ∈ safes st → c ∈ moves_made st).
Proof.
  split; [intros h w; reflexivity |].
  split.
  { intros c n st. split; [apply add_knowledge_moves_made |].
    pose proof (add_knowledge_safes c n st) as Hs. split.
    - apply Hs, elem_of_union_l, elem_of_singleton. reflexivity.
    - etransitivity; [apply union_subseteq_r | exact Hs]. }
  split.
  { intros c st. split; [apply (grows_mark_safe c st) | apply (grows_mark_mine c st)]. }
  split.
  { intros st. split; [apply (grows_sweep st) |].
    split; [apply (grows_deduce_knowledge st) | apply (grows_clean_knowledge st)]. }
  split.
  { intros order draws st. split.
    - unfold make_safe_move. destruct (Nat.eqb _ _); reflexivity.
    - unfold make_random_move.
      destruct (_ =? _); [reflexivity |]. destruct (_ || _); reflexivity. }
  split; [exact add_knowledge_keeps_subset |].
  split; [exact run_moves_subset_safes |].
  split; [exact same_size_same_set |].
  intros order st Hsub Hsize. split.
  - unfold make_safe_move. rewrite Hsize, Nat.eqb_refl. reflexivity.
  - intros c Hc. rewrite (same_size_same_set st Hsub Hsize) in Hc. exact Hc.
Qed.

(** C8: in a state reached from [__init__] by calls of [add_knowledge],
    whatever the order in which the set [self.safes] is iterated,
    [make_safe_move] returns a cell of [self.safes] that is not in
    [self.moves_made] when there is one, returns nothing when there is none,
    and leaves the state as it was. *)
Theorem make_safe_move_spec (h w : Z) (obs : list (cell * Z)) (order : list cell) :
  order ≡ₚ elements (safes (run h w obs)) →
  snd (make_safe_move order (run h w obs)) = run h w obs
  ∧ (∀ c, fst (make_safe_move order (run h w obs)) = Some c →
          c ∈ safes (run h w obs) ∧ c ∉ moves_made (run h w obs))
  ∧ ((∃ c, c ∈ safes (run h w obs) ∧ c ∉ moves_made (run h w obs)) →
     ∃ c, fst (make_safe_move order (run h w obs)) = Some c)
  ∧ ((∀ c, c ∈ safes (run h w obs) → c ∈ moves_made (run h w obs)) →
     fst (make_safe_move order (run h w obs)) = None).
Proof.
  intros Hperm.
  pose proof (make_safe_move_result order (run h w obs)
                (run_moves_subset_safes h w obs) Hperm) as Hres.
  split.
  { unfold make_safe_move. destruct (Nat.eqb _ _); reflexivity. }
  destruct (fst (make_safe_move order (run h w obs))) as [c |].
  - split; [intros c' [= <-]; exact Hres |].
    split; [intros _; exists c; reflexivity |].
    intros Hall. destruct Hres as [Hs Hm]. exfalso. apply Hm, Hall, Hs.
  - split; [intros c' [=] |].
    split; [| reflexivity].
    intros (c & Hs & Hm). exfalso. apply Hm, Hres, Hs.
Qed.

Lemma make_safe_move_spec_witness :
  snd (make_safe_move [(0, 1); (0, 0); (1, 0); (1, 1)] (run 2 2 [((0, 0), 0)]))
  = run 2 2 [((0, 0), 0)]
  ∧ (∀ c, fst (make_safe_move [(0, 1); (0, 0); (1, 0); (1, 1)] (run 2 2 [((0, 0), 0)]))
          = Some c →
          c ∈ safes (run 2 2 [((0, 0), 0)]) ∧ c ∉ moves_made (run 2 2 [((0, 0), 0)]))
  ∧ ((∃ c, c ∈ safes (run 2 2 [((0, 0), 0)]) ∧ c ∉ moves_made (run 2 2 [((0, 0), 0)])) →
     ∃ c, fst (make_safe_move [(0, 1); (0, 0); (1, 0); (1, 1)] (run 2 2 [((0, 0), 0)]))
          = Some c)
  ∧ ((∀ c, c ∈ safes (run 2 2 [((0, 0), 0)]) → c ∈ moves_made (run 2 2 [((0, 0), 0)])) →
     fst (make_safe_move [(0, 1); (0, 0); (1, 0); (1, 1)] (run 2 2 [((0, 0), 0)])) = None).
Proof.
  apply (make_safe_move_spec 2 2 [((0, 0), 0)] [(0, 1); (0, 0); (1, 0); (1, 1)]).
  apply NoDup_Permutation.
  - repeat (apply NoDup_cons; split;
            [ rewrite ?elem_of_cons, elem_of_nil; intros H;
              repeat (destruct H as [H | H]; [ discriminate H | ]); exact H | ]).
    apply NoDup_nil; exact I.
  - apply NoDup_elements.
  - intros c. rewrite elem_of_elements.
    assert (safes (run 2 2 [((0, 0), 0)]) = {[ (0, 1); (0, 0); (1, 0); (1, 1) ]}) as ->
      by (vm_compute; reflexivity).
    rewrite !elem_of_cons, elem_of_nil, !elem_of_union, !elem_of_singleton. tauto.
Defined.

Example make_safe_move_example :
  fst (make_safe_move [(0, 1); (0, 0); (1, 0); (1, 1)] (run 2 2 [((0, 0), 0)]))
  = Some (0, 1).
Proof. vm_compute. reflexivity. Qed.

(** ** make_random_move *)

Section RandomMove.

Variable st : MinesweeperAI.t.

Lemma accept_true (d : cell) :
  bool_decide (d ∉ moves_made st) && bool_decide (d ∉ mines st) = true
  ↔ (d ∉ moves_made st) ∧ (d ∉ mines st).
Proof. rewrite andb_true_iff, !bool_decide_eq_true. reflexivity. Qed.

Lemma accept_false (d : cell) :
  bool_decide (d ∉ moves_made st) && bool_decide (d ∉ mines st) = false
  ↔ rejected st d.
Proof.
  unfold rejected. rewrite andb_false_iff, !bool_decide_eq_false.
  destruct (decide (d ∈ moves_made st)), (decide (d ∈ mines st)); tauto.
Qed.

Lemma random_loop_returns (pre post : list cell) (m : cell) :
  Forall (rejected st) pre → m ∉ moves_made st → m ∉ mines st →
  random_loop st (pre ++ m :: post) = Returned (Some m).
Proof.
  intros Hpre Hm1 Hm2. induction Hpre as [| d pre Hd _ IH]; cbn [app random_loop].
  - rewrite (proj2 (accept_true m) (conj Hm1 Hm2)). reflexivity.
  - rewrite (proj2 (accept_false d) Hd). exact IH.
Qed.

Lemma random_loop_pending (draws : list cell) :
  Forall (rejected st) draws → random_loop st draws = Pending.
Proof.
  intros H. induction H as [| d draws Hd _ IH]; cbn [random_loop]; [reflexivity |].
  rewrite (proj2 (accept_false d) Hd). exact IH.
Qed.

(** The loop either is still running, all draws so far thrown away, or has
    returned the first draw that is neither a move made nor a known mine. *)
Lemma random_loop_cases (draws : list cell) :
  (random_loop st draws = Pending ∧ Forall (rejected st) draws)
  ∨ ∃ pre m post, draws = pre ++ m :: post ∧ Forall (rejected st) pre
                  ∧ (m ∉ moves_made st) ∧ (m ∉ mines st)
                  ∧ random_loop st draws = Returned (Some m).
Proof.
  induction draws as [| d draws IH]; cbn [random_loop].
  - left. split; [reflexivity | constructor].
  - destruct (bool_decide (d ∉ moves_made st) && bool_decide (d ∉ mines st)) eqn:E.
    + right. apply accept_true in E as [H1 H2].
      exists [], d, draws. repeat split; try assumption; constructor.
    + apply accept_false in E. destruct IH as [[Hp Hall] | (pre & m & post & -> & Hpre & H1 & H2 & Hr)].
      * left. split; [exact Hp | constructor; assumption].
      * right. exists (d :: pre), m, post.
        repeat split; try assumption. constructor; assumption.
Qed.

End RandomMove.

(** C6, as stated, fails: on the 1 x 3 board with mines at (0,0) and (0,1),
    after the observation of (0,2) the only cell without a mine has been
    played, so the moves made are as many as the cells minus the two mines;
    one mine is known, and [make_random_move] does not return nothing: it
    returns the cell (0,0) when it is drawn. *)
Lemma make_random_move_counterexample :
  let st := run 1 3 [observation board_1x3 (0, 2)] in
  let total_hazards := 2 in
  Z.of_nat (size (moves_made st)) = height st * width st - total_hazards
  ∧ mines st = {[ (0, 1) ]}
  ∧ fst (make_random_move [(0, 1); (0, 2); (0, 0)] st) = Returned (Some (0, 0)).
Proof. cbv zeta. repeat split; vm_compute; reflexivity. Qed.

(** C6 (amended): [make_random_move] changes nothing.  It returns nothing when
    the number of moves made is the number of cells of the grid minus the
    number of known mines ([len(self.mines)]).  Otherwise, on a grid with at
    least one cell in each direction, it goes through the draws, throws away
    those that are moves made or known mines, and returns the first other
    draw: the result is a draw that is neither a move made nor a known mine,
    and as long as every draw is thrown away the loop goes on. *)
Theorem make_random_move_spec (draws : list cell) (st : MinesweeperAI.t) :
  snd (make_random_move draws st) = st
  ∧ (Z.of_nat (size (moves_made st)) = width st * height st - Z.of_nat (size (mines st)) →
     fst (make_random_move draws st) = Returned None)
  ∧ (Z.of_nat (size (moves_made st)) ≠ width st * height st - Z.of_nat (size (mines st)) →
     0 < height st → 0 < width st →
     (∀ pre m post, draws = pre ++ m :: post → Forall (rejected st) pre →
                    m ∉ moves_made st → m ∉ mines st →
                    fst (make_random_move draws st) = Returned (Some m))
     ∧ (Forall (rejected st) draws → fst (make_random_move draws st) = Pending)
     ∧ (∀ r, fst (make_random_move draws st) = Returned r →
             ∃ m, r = Some m ∧ m ∈ draws ∧ (m ∉ moves_made st) ∧ (m ∉ mines st))
     ∧ fst (make_random_move draws st) ≠ Raised).
Proof.
  unfold make_random_move. split.
  { destruct (_ =? _); [reflexivity |]. destruct (_ || _); reflexivity. }
  split.
  { intros Heq. rewrite (proj2 (Z.eqb_eq _ _) Heq). reflexivity. }
  intros Hne Hh Hw.
  rewrite (proj2 (Z.eqb_neq _ _) Hne).
  assert ((height st <=? 0) || (width st <=? 0) = false) as ->.
  { apply orb_false_iff. split; apply Z.leb_gt; assumption. }
  cbn [fst]. split.
  { intros pre m post -> Hpre H1 H2. apply random_loop_returns; assumption. }
  split; [apply random_loop_pending |].
  destruct (random_loop_cases st draws)
    as [[Hp _] | (pre & m & post & -> & _ & H1 & H2 & Hr)].
  - rewrite Hp. split; [intros r [=] | discriminate].
  - rewrite Hr. split; [| discriminate].
    intros r [= <-]. exists m. split; [reflexivity |].
    split; [| split; assumption].
    apply elem_of_app. right. apply elem_of_cons. left. reflexivity.
Qed.

Lemma make_random_move_spec_witness :
  fst (make_random_move [(0, 1); (0, 2); (0, 0)] (run 1 3 [observation board_1x3 (0, 2)]))
  = Returned (Some (0, 0)).
Proof.
  pose proof (make_random_move_spec [(0, 1); (0, 2); (0, 0)]
                (run 1 3 [observation board_1x3 (0, 2)])) as (_ & _ & H).
  assert (mines (run 1 3 [observation board_1x3 (0, 2)]) = {[ (0, 1) ]}) as Hmines
    by (vm_compute; reflexivity).
  assert (moves_made (run 1 3 [observation board_1x3 (0, 2)]) = {[ (0, 2) ]}) as Hmoves
    by (vm_compute; reflexivity).
  destruct H as (H & _).
  - rewrite Hmines, Hmoves. vm_compute. discriminate.
  - vm_compute. reflexivity.
  - vm_compute. reflexivity.
  - apply (H [(0, 1); (0, 2)] (0, 0) []).
    + reflexivity.
    + unfold rejected. rewrite Hmines, Hmoves.
      constructor; [right; apply elem_of_singleton; reflexivity |].
      constructor; [left; apply elem_of_singleton; reflexivity | constructor].
    + rewrite Hmoves, elem_of_singleton. discriminate.
    + rewrite Hmines, elem_of_singleton. discriminate.
Defined.

(** ** Soundness of the knowledge with respect to a board *)

Section SentenceSound.

Variable g : Minesweeper.t.

Lemma elem_of_mines_among (cs : gset cell) (c : cell) :
  c ∈ mines_among g cs ↔ Minesweeper.is_mine g c = true ∧ c ∈ cs.
Proof. unfold mines_among. rewrite elem_of_filter. reflexivity. Qed.

Lemma mines_among_subseteq (cs : gset cell) : mines_among g cs ⊆ cs.
Proof. intros c Hc. apply elem_of_mines_among in Hc. tauto. Qed.

Lemma holds_mark_safe (c : cell) (s : Sentence.t) :
  Minesweeper.is_mine g c = false → holds g s → holds g (Sentence.mark_safe c s).
Proof.
  intros Hc Hs. unfold Sentence.mark_safe.
  destruct (bool_decide (c ∈ Sentence.cells s)); [| exact Hs].
  unfold holds in *. cbn [Sentence.cells Sentence.count]. rewrite <- Hs.
  f_equal. f_equal. apply set_eq. intros x.
  rewrite !elem_of_mines_among, elem_of_difference, elem_of_singleton.
  split; [tauto |]. intros [Hx Hin]. repeat split; try assumption.
  intros ->. congruence.
Qed.

Lemma holds_mark_mine (c : cell) (s : Sentence.t) :
  Minesweeper.is_mine g c = true → holds g s → holds g (Sentence.mark_mine c s).
Proof.
  intros Hc Hs. unfold Sentence.mark_mine.
  destruct (bool_decide_reflect (c ∈ Sentence.cells s)) as [Hin | Hnin]; [| exact Hs].
  unfold holds in *. cbn [Sentence.cells Sentence.count]. rewrite <- Hs.
  assert (mines_among g (Sentence.cells s ∖ {[c]})
          = mines_among g (Sentence.cells s) ∖ {[c]}) as ->.
  { apply set_eq. intros x.
    rewrite elem_of_difference, !elem_of_mines_among, elem_of_difference. tauto. }
  assert ({[c]} ⊆ mines_among g (Sentence.cells s)) as Hsub.
  { intros x Hx. apply elem_of_singleton in Hx as ->.
    apply elem_of_mines_among. split; assumption. }
  rewrite (size_difference _ _ Hsub), size_singleton.
  apply subseteq_size in Hsub. rewrite size_singleton in Hsub. lia.
Qed.

Lemma known_safes_sound (s : Sentence.t) (c : cell) :
  holds g s → c ∈ default ∅ (Sentence.known_safes s) →
  Minesweeper.is_mine g c = false.
Proof.
  unfold holds, Sentence.known_safes. intros Hs Hc.
  destruct (Z.eqb_spec (Sentence.count s) 0) as [H0 | _]; cbn [default] in Hc;
    [| apply elem_of_empty in Hc; contradiction].
  destruct (Minesweeper.is_mine g c) eqn:E; [| reflexivity].
  assert (c ∈ mines_among g (Sentence.cells s)) as Hin
    by (apply elem_of_mines_among; split; assumption).
  assert (size (mines_among g (Sentence.cells s)) = 0%nat) as Hsz by lia.
  apply size_empty_iff in Hsz. rewrite Hsz in Hin.
  apply elem_of_empty in Hin. contradiction.
Qed.

Lemma known_mines_sound (s : Sentence.t) (c : cell) :
  holds g s → c ∈ default ∅ (Sentence.known_mines s) →
  Minesweeper.is_mine g c = true.
Proof.
  unfold holds, Sentence.known_mines. intros Hs Hc.
  destruct (Z.eqb_spec (Z.of_nat (size (Sentence.cells s))) (Sentence.count s))
    as [Heq | _]; cbn [default] in Hc;
    [| apply elem_of_empty in Hc; contradiction].
  assert (mines_among g (Sentence.cells s) = Sentence.cells s) as Hall.
  { apply set_subseteq_size_eq; [apply mines_among_subseteq | lia]. }
  rewrite <- Hall in Hc. apply elem_of_mines_among in Hc. tauto.
Qed.

(** The sentence deduced from two true sentences is true. *)
Lemma holds_deduction (A B : Sentence.t) (i : nat) :
  holds g A → holds g B → Sentence.cells B ⊆ Sentence.cells A →
  holds g (Sentence.mk i (Sentence.cells A ∖ Sentence.cells B)
             (Sentence.count A - Sentence.count B)).
Proof.
  unfold holds. cbn [Sentence.cells Sentence.count]. intros HA HB Hsub.
  rewrite <- HA, <- HB.
  assert (mines_among g (Sentence.cells A ∖ Sentence.cells B)
          = mines_among g (Sentence.cells A) ∖ mines_among g (Sentence.cells B)) as ->.
  { apply set_eq. intros x.
    rewrite elem_of_difference, !elem_of_mines_among, elem_of_difference. tauto. }
  assert (mines_among g (Sentence.cells B) ⊆ mines_among g (Sentence.cells A)) as Hsub'.
  { intros x. rewrite !elem_of_mines_among. intros [Hx Hin]. split; [exact Hx | auto]. }
  rewrite (size_difference _ _ Hsub'). apply subseteq_size in Hsub'. lia.
Qed.

End SentenceSound.

Section StateSound.

Variable g : Minesweeper.t.

Lemma sound_mark_safe (c : cell) (st : MinesweeperAI.t) :
  Minesweeper.is_mine g c = false → sound g st → sound g (mark_safe c st).
Proof.
  intros Hc (Hh & Hw & Hs & Hm & Hk). unfold sound. cbn.
  split; [exact Hh |]. split; [exact Hw |]. split; [| split; [exact Hm |]].
  - intros x Hx. apply elem_of_union in Hx as [Hx | Hx]; [| auto].
    apply elem_of_singleton in Hx as ->. exact Hc.
  - apply Forall_fmap. eapply Forall_impl; [exact Hk |].
    intros s. apply holds_mark_safe. exact Hc.
Qed.

Lemma sound_mark_mine (c : cell) (st : MinesweeperAI.t) :
  Minesweeper.is_mine g c = true → sound g st → sound g (mark_mine c st).
Proof.
  intros Hc (Hh & Hw & Hs & Hm & Hk). unfold sound. cbn.
  split; [exact Hh |]. split; [exact Hw |]. split; [exact Hs |]. split.
  - intros x Hx. apply elem_of_union in Hx as [Hx | Hx]; [| auto].
    apply elem_of_singleton in Hx as ->. exact Hc.
  - apply Forall_fmap. eapply Forall_impl; [exact Hk |].
    intros s. apply holds_mark_mine. exact Hc.
Qed.

Lemma sound_mark_all_safe (cs : gset cell) (st : MinesweeperAI.t) :
  (∀ c, c ∈ cs → Minesweeper.is_mine g c = false) →
  sound g st → sound g (mark_all_safe cs st).
Proof.
  intros Hcs. apply (foldl_preserves (sound g)).
  intros st' c Hc. apply sound_mark_safe, Hcs, elem_of_elements, Hc.
Qed.

Lemma sound_mark_all_mines (cs : gset cell) (st : MinesweeperAI.t) :
  (∀ c, c ∈ cs → Minesweeper.is_mine g c = true) →
  sound g st → sound g (mark_all_mines cs st).
Proof.
  intros Hcs. apply (foldl_preserves (sound g)).
  intros st' c Hc. apply sound_mark_mine, Hcs, elem_of_elements, Hc.
Qed.

Lemma sound_lookup (st : MinesweeperAI.t) (i : nat) (s : Sentence.t) :
  sound g st → knowledge st !! i = Some s → holds g s.
Proof.
  intros (_ & _ & _ & _ & Hk) Hi.
  exact (proj1 (Forall_lookup (holds g) (knowledge st)) Hk i s Hi).
Qed.

Lemma sound_sweep_at (st : MinesweeperAI.t) (i : nat) :
  sound g st → sound g (sweep_at st i).
Proof.
  intros Hst. unfold sweep_at.
  set (st1 := match knowledge st !! i with
              | Some sentence => _
              | None => st
              end).
  assert (sound g st1) as H1.
  { subst st1. destruct (knowledge st !! i) as [s |] eqn:Hi; [| exact Hst].
    destruct (truthy (Sentence.known_safes s)); [| exact Hst].
    apply sound_mark_all_safe; [| exact Hst].
    intros c. apply known_safes_sound. exact (sound_lookup st i s Hst Hi). }
  destruct (knowledge st1 !! i) as [s |] eqn:Hi; [| exact H1].
  destruct (truthy (Sentence.known_mines s)); [| exact H1].
  apply sound_mark_all_mines; [| exact H1].
  intros c. apply known_mines_sound. exact (sound_lookup st1 i s H1 Hi).
Qed.

Lemma sound_sweep (st : MinesweeperAI.t) : sound g st → sound g (sweep st).
Proof.
  apply (foldl_preserves (sound g)). intros st' i _. apply sound_sweep_at.
Qed.

(** Whether a sentence holds depends on its cells and count only. *)
Lemma holds_content (s s' : Sentence.t) :
  content s = content s' → holds g s → holds g s'.
Proof. unfold content, holds. intros [= -> ->]. tauto. Qed.

Lemma sound_deduce_knowledge (st : MinesweeperAI.t) :
  sound g st → sound g (deduce_knowledge st).
Proof.
  intros Hst. pose proof Hst as (Hh & Hw & Hs & Hm & Hk).
  destruct (grows_deduce_knowledge st) as (Hh' & Hw' & _ & _ & _).
  unfold deduce_knowledge in *.
  destruct (append_all_knowledge (deductions (knowledge st)) st) as (new & Hnew & Hc).
  destruct (append_all_fields (deductions (knowledge st)) st) as (_ & _ & _ & Hmi & Hsa).
  unfold sound. rewrite Hh', Hw', Hmi, Hsa, Hnew.
  repeat (split; [assumption |]).
  apply Forall_app. split; [exact Hk |].
  apply Forall_forall. intros s Hin.
  assert (content s ∈ deductions (knowledge st)) as Hd.
  { rewrite <- Hc. apply list_elem_of_fmap. exists s. split; [reflexivity | exact Hin]. }
  destruct (content s) as [cs n] eqn:Es.
  apply elem_of_deductions in Hd as (A & B & HA & HB & _ & [Hsub _] & -> & ->).
  apply (holds_content (Sentence.mk 0 (Sentence.cells A ∖ Sentence.cells B)
                          (Sentence.count A - Sentence.count B))).
  - symmetry. exact Es.
  - apply holds_deduction; [| | exact Hsub].
    + exact (proj1 (Forall_forall _ _) Hk A HA).
    + exact (proj1 (Forall_forall _ _) Hk B HB).
Qed.

End StateSound.

(** ** clean_knowledge only removes sentences *)

Section Clean.

Lemma list_remove_first_subseteq (x : Sentence.t) (l : list Sentence.t) :
  list_remove_first x l ⊆ l.
Proof.
  induction l as [| e l IH]; cbn [list_remove_first]; [reflexivity |].
  destruct (Sentence.same_object e x || Sentence.eq e x).
  - intros y Hy. apply elem_of_cons. right. exact Hy.
  - intros y Hy. apply elem_of_cons in Hy as [-> | Hy].
    + apply elem_of_cons. left. reflexivity.
    + apply elem_of_cons. right. apply IH. exact Hy.
Qed.

Lemma clean_inner_subseteq (fuel : nat) (s : Sentence.t) (j : nat) (k : list Sentence.t) :
  clean_inner fuel s j k ⊆ k.
Proof.
  revert j k. induction fuel as [| fuel IH]; intros j k; cbn [clean_inner];
    [reflexivity |].
  destruct (k !! j) as [d |]; [| reflexivity].
  etransitivity; [apply IH |].
  destruct (_ && _); [apply list_remove_first_subseteq | reflexivity].
Qed.

Lemma clean_outer_subseteq (fuel : nat) (i : nat) (k : list Sentence.t) :
  clean_outer fuel i k ⊆ k.
Proof.
  revert i k. induction fuel as [| fuel IH]; intros i k; cbn [clean_outer];
    [reflexivity |].
  destruct (k !! i) as [s |]; [| reflexivity].
  etransitivity; [apply IH |].
  etransitivity; [apply clean_inner_subseteq |].
  destruct (Nat.eqb _ _); [apply list_remove_first_subseteq | reflexivity].
Qed.

Lemma sound_clean_knowledge (g : Minesweeper.t) (st : MinesweeperAI.t) :
  sound g st → sound g (clean_knowledge st).
Proof.
  intros (Hh & Hw & Hs & Hm & Hk). unfold sound, clean_knowledge. cbn.
  repeat (split; [assumption |]).
  apply Forall_forall. intros s Hin.
  apply (proj1 (Forall_forall _ _) Hk).
  exact (clean_outer_subseteq _ _ _ s Hin).
Qed.

End Clean.

(** ** The count of an observation and the neighbours of the agent *)

Section Counting.

Variable g : Minesweeper.t.

Lemma range_around (a : Z) : range (a - 1) (a + 2) = [a - 1; a; a + 1].
Proof.
  unfold range. replace (a + 2 - (a - 1)) with 3 by lia.
  change (Z.to_nat 3) with 3%nat. cbn [seq map].
  change (Z.of_nat 0) with 0. change (Z.of_nat 1) with 1. change (Z.of_nat 2) with 2.
  f_equal; [lia |]. f_equal; [lia |]. f_equal. lia.
Qed.

Lemma nearby_step (c : cell) (count i j : Z) :
  (if bool_decide ((i, j) = c) then count
   else if (0 <=? i) && (i <? Minesweeper.height g)
           && (0 <=? j) && (j <? Minesweeper.width g)
        then (if Minesweeper.board_at g i j then count + 1 else count)
        else count)
  = count + (if bool_decide ((i, j) = c) then 0 else mine_at g (i, j)).
Proof.
  unfold mine_at. cbn [fst snd].
  destruct (bool_decide ((i, j) = c)); [lia |].
  destruct (_ && _); [| lia]. destruct (Minesweeper.board_at g i j); lia.
Qed.

Lemma foldl_pointwise {A B : Type} (f f' : A → B → A) (l : list B) (a : A) :
  (∀ a' x, f a' x = f' a' x) → foldl f a l = foldl f' a l.
Proof.
  intros Hf. revert a. induction l as [| x l IH]; intros a; cbn [foldl];
    [reflexivity |].
  rewrite Hf. apply IH.
Qed.

(** [nearby_mines] adds up the eight cells around the cell. *)
Lemma nearby_mines_sum (i j : Z) :
  Minesweeper.nearby_mines g (i, j)
  = mine_at g (i - 1, j - 1) + mine_at g (i - 1, j) + mine_at g (i - 1, j + 1)
    + mine_at g (i, j - 1) + mine_at g (i, j + 1)
    + mine_at g (i + 1, j - 1) + mine_at g (i + 1, j) + mine_at g (i + 1, j + 1).
Proof.
  unfold Minesweeper.nearby_mines. cbn [fst snd]. rewrite !range_around.
  rewrite (foldl_pointwise _
             (fun count x =>
                foldl (fun count y =>
                         count + (if bool_decide ((x, y) = (i, j)) then 0
                                  else mine_at g (x, y)))
                      count [j - 1; j; j + 1])).
  2: { intros count x. apply foldl_pointwise. intros count' y. apply nearby_step. }
  cbn [foldl].
  repeat match goal with
  | |- context [bool_decide (?p = ?q)] =>
      first [ rewrite (bool_decide_eq_true_2 (p = q)) by reflexivity
            | rewrite (bool_decide_eq_false_2 (p = q)) by (intros [=]; lia) ]
  end.
  lia.
Qed.

Variable st : MinesweeperAI.t.
Hypothesis Hheight : height st = Minesweeper.height g.
Hypothesis Hwidth : width st = Minesweeper.width g.

Lemma guard_mine_count (x y : Z) :
  Z.of_nat (length (filter (fun c => Minesweeper.is_mine g c = true)
                      (if in_bounds st x y then [(x, y)] else [])))
  = mine_at g (x, y).
Proof.
  unfold mine_at, in_bounds, Minesweeper.is_mine. cbn [fst snd].
  rewrite Hheight, Hwidth.
  destruct (_ && _); [| reflexivity].
  rewrite filter_cons, filter_nil. cbn [fst snd].
  destruct (decide (Minesweeper.board_at g x y = true)) as [-> | Hne]; [reflexivity |].
  destruct (Minesweeper.board_at g x y); [congruence | reflexivity].
Qed.

Lemma mines_among_list (l : list cell) :
  NoDup l →
  size (mines_among g (list_to_set l))
  = length (filter (fun c => Minesweeper.is_mine g c = true) l).
Proof.
  intros Hnd.
  assert (mines_among g (list_to_set l)
          = list_to_set (filter (fun c => Minesweeper.is_mine g c = true) l)) as ->.
  { apply set_eq. intros x.
    rewrite elem_of_mines_among, !elem_of_list_to_set, list_elem_of_filter.
    reflexivity. }
  apply size_list_to_set, NoDup_filter, Hnd.
Qed.

(** The mines among the cells of [get_neighbors], cell by cell. *)
Lemma neighbors_mines_sum (i j : Z) :
  Z.of_nat (size (mines_among g (list_to_set (get_neighbors st (i, j)))))
  = mine_at g (i + 1, j + 1) + mine_at g (i + 1, j) + mine_at g (i + 1, j - 1)
    + mine_at g (i, j + 1) + mine_at g (i, j) + mine_at g (i, j - 1)
    + mine_at g (i - 1, j + 1) + mine_at g (i - 1, j) + mine_at g (i - 1, j - 1).
Proof.
  rewrite mines_among_list
    by exact (sublist_NoDup _ _ (candidates_NoDup i j) (get_neighbors_sublist st i j)).
  unfold get_neighbors. change (range (-1) 2) with [-1; 0; 1]. cbn [flat_map app].
  rewrite !filter_app, !length_app, !Nat2Z.inj_add, !guard_mine_count.
  rewrite filter_nil. cbn [length]. change (Z.of_nat 0) with 0.
  replace (i - -1) with (i + 1) by lia. replace (j - -1) with (j + 1) by lia.
  replace (i - 0) with i by lia. replace (j - 0) with j by lia.
  lia.
Qed.

(** For a cell without a mine, the count that the board gives is the number
    of mines among the cells of [get_neighbors]. *)
Lemma neighbors_mines_count (c : cell) :
  Minesweeper.is_mine g c = false →
  Z.of_nat (size (mines_among g (list_to_set (get_neighbors st c))))
  = Minesweeper.nearby_mines g c.
Proof.
  destruct c as [i j]. intros Hc.
  rewrite neighbors_mines_sum, nearby_mines_sum.
  assert (mine_at g (i, j) = 0) as H0.
  { unfold mine_at. unfold Minesweeper.is_mine in Hc. cbn [fst snd] in *.
    rewrite Hc. destruct (_ && _); reflexivity. }
  lia.
Qed.

End Counting.

(** ** add_knowledge keeps the knowledge sound *)

Section ObserveSound.

Variable g : Minesweeper.t.

Lemma sound_record_move (c : cell) (st : MinesweeperAI.t) :
  Minesweeper.is_mine g c = false → sound g st → sound g (record_move c st).
Proof.
  intros Hc (Hh & Hw & Hs & Hm & Hk). unfold record_move.
  apply sound_mark_safe; [exact Hc |]. unfold sound. cbn. auto.
Qed.

(** The sentence of lines 209-211 is true. *)
Lemma holds_new_sentence (c : cell) (st : MinesweeperAI.t) (i : nat) :
  Minesweeper.is_mine g c = false → sound g st →
  holds g (Sentence.mk i (new_sentence_cells st (get_neighbors st c))
             (Minesweeper.nearby_mines g c)).
Proof.
  intros Hc (Hh & Hw & Hs & _). unfold holds. cbn [Sentence.cells Sentence.count].
  rewrite <- (neighbors_mines_count g st Hh Hw c Hc).
  f_equal. f_equal. apply set_eq. intros x.
  rewrite !elem_of_mines_among, elem_of_new_sentence_cells, elem_of_list_to_set.
  split; [tauto |]. intros [Hx Hin]. repeat split; try assumption.
  intros Hsafe. apply Hs in Hsafe. congruence.
Qed.

Lemma sound_append_sentence (cs : gset cell) (n : Z) (st : MinesweeperAI.t) :
  holds g (Sentence.mk (next_id st) cs n) → sound g st →
  sound g (append_sentence cs n st).
Proof.
  intros Hnew (Hh & Hw & Hs & Hm & Hk). unfold sound. cbn.
  repeat (split; [assumption |]).
  apply Forall_app. split; [exact Hk |]. constructor; [exact Hnew | constructor].
Qed.

(** When the board gives the count 0, no neighbour holds a mine. *)
Lemma neighbors_safe (c n : cell) (st : MinesweeperAI.t) :
  Minesweeper.is_mine g c = false → sound g st →
  Minesweeper.nearby_mines g c = 0 →
  n ∈ get_neighbors st c → Minesweeper.is_mine g n = false.
Proof.
  intros Hc (Hh & Hw & _) H0 Hn.
  pose proof (neighbors_mines_count g st Hh Hw c Hc) as Hcount.
  rewrite H0 in Hcount.
  assert (size (mines_among g (list_to_set (get_neighbors st c))) = 0%nat) as Hsz by lia.
  apply size_empty_iff in Hsz.
  destruct (Minesweeper.is_mine g n) eqn:E; [| reflexivity].
  assert (n ∈ mines_among g (list_to_set (get_neighbors st c))) as Hin.
  { apply elem_of_mines_among. split; [exact E |]. apply elem_of_list_to_set. exact Hn. }
  rewrite Hsz in Hin. apply elem_of_empty in Hin. contradiction.
Qed.

Lemma sound_mark_neighbors_safe (ns : list cell) (st : MinesweeperAI.t) :
  (∀ n, n ∈ ns → Minesweeper.is_mine g n = false) →
  sound g st → sound g (mark_neighbors_safe ns st).
Proof.
  intros Hns. apply (foldl_preserves (sound g)).
  intros st' n Hn Hst'. destruct (bool_decide (n ∈ safes st')); [exact Hst' |].
  apply sound_mark_safe; [apply Hns, Hn | exact Hst'].
Qed.

Lemma sound_observe (c : cell) (st : MinesweeperAI.t) :
  Minesweeper.is_mine g c = false → sound g st →
  sound g (observe c (Minesweeper.nearby_mines g c) st).
Proof.
  intros Hc Hst. pose proof (sound_record_move c st Hc Hst) as H1.
  unfold observe.
  set (st1 := record_move c st) in *.
  set (st2 := if 0 <? Minesweeper.nearby_mines g c then _ else st1).
  assert (sound g st2) as H2.
  { subst st2. destruct (0 <? Minesweeper.nearby_mines g c); [| exact H1].
    apply sound_append_sentence; [| exact H1].
    apply holds_new_sentence; assumption. }
  destruct (Z.eqb_spec (Minesweeper.nearby_mines g c) 0) as [H0 | _]; [| exact H2].
  apply sound_mark_neighbors_safe; [| exact H2].
  intros n Hn. exact (neighbors_safe c n st1 Hc H1 H0 Hn).
Qed.

Lemma sound_add_knowledge (c : cell) (st : MinesweeperAI.t) :
  Minesweeper.is_mine g c = false → sound g st →
  sound g (add_knowledge c (Minesweeper.nearby_mines g c) st).
Proof.
  intros Hc Hst. pose proof (sound_observe c st Hc Hst) as Ho.
  unfold add_knowledge. destruct (_ <? _)%nat; [exact Ho |].
  apply sound_clean_knowledge, sound_deduce_knowledge, sound_sweep, Ho.
Qed.

Lemma sound_init : sound g (init (Minesweeper.height g) (Minesweeper.width g)).
Proof.
  unfold sound, init. cbn. repeat split; try constructor.
  - intros c Hc. apply elem_of_empty in Hc. contradiction.
  - intros c Hc. apply elem_of_empty in Hc. contradiction.
Qed.

Lemma sound_run (cs : list cell) :
  Forall (playable g) cs →
  sound g (run (Minesweeper.height g) (Minesweeper.width g) (map (observation g) cs)).
Proof.
  intros Hcs. unfold run. rewrite foldl_fmap.
  apply (foldl_preserves (sound g)); [| apply sound_init].
  intros st c Hc Hst. cbn [observation fst snd].
  apply sound_add_knowledge; [| exact Hst].
  exact (proj2 (proj1 (Forall_forall _ _) Hcs c Hc)).
Qed.

End ObserveSound.

(** C7: on a fixed board, after any calls of [add_knowledge] that each give a
    cell of the board without a mine and the count that the board has for it,
    no cell is both in [self.mines] and in [self.safes].  (All the agent
    knows is then true of the board: the safe cells hold no mine, the known
    mines hold one, and every sentence has the number of mines it says.) *)
Theorem confirmed_sets_disjoint (g : Minesweeper.t) (cs : list cell) :
  Minesweeper.well_formed g →
  Forall (playable g) cs →
  mines (run (Minesweeper.height g) (Minesweeper.width g) (map (observation g) cs))
  ∩ safes (run (Minesweeper.height g) (Minesweeper.width g) (map (observation g) cs))
  = ∅
  ∧ sound g (run (Minesweeper.height g) (Minesweeper.width g) (map (observation g) cs)).
Proof.
  intros _ Hcs. pose proof (sound_run g cs Hcs) as Hsound. split; [| exact Hsound].
  destruct Hsound as (_ & _ & Hs & Hm & _).
  apply set_eq. intros c. rewrite elem_of_intersection. split.
  - intros [H1 H2]. apply Hm in H1. apply Hs in H2. congruence.
  - intros Hc. apply elem_of_empty in Hc. contradiction.
Qed.

Lemma confirmed_sets_disjoint_witness :
  mines (run 3 3 (map (observation board_3x3) [(0, 0); (0, 1); (1, 0)]))
  ∩ safes (run 3 3 (map (observation board_3x3) [(0, 0); (0, 1); (1, 0)]))
  = ∅
  ∧ sound board_3x3 (run 3 3 (map (observation board_3x3) [(0, 0); (0, 1); (1, 0)])).
Proof.
  apply (confirmed_sets_disjoint board_3x3 [(0, 0); (0, 1); (1, 0)]).
  - split; [reflexivity |]. repeat constructor.
  - repeat constructor; cbn; lia.
Defined.

(** ** The model of the loops *)

(** The loops of [clean_knowledge] end before their fuel does: with more
    fuel than the length of the list the result is the same. *)
Section CleanFuel.

Lemma list_remove_first_length (x : Sentence.t) (l : list Sentence.t) :
  (length (list_remove_first x l) ≤ length l)%nat.
Proof.
  induction l as [| e l IH]; cbn [list_remove_first length]; [lia |].
  destruct (_ || _); cbn [length]; lia.
Qed.

(** An element that is in the list is found and removed. *)
Lemma list_remove_first_found (x : Sentence.t) (l : list Sentence.t) :
  x ∈ l → S (length (list_remove_first x l)) = length l.
Proof.
  induction l as [| e l IH]; intros Hx; [apply elem_of_nil in Hx; contradiction |].
  cbn [list_remove_first].
  destruct (Sentence.same_object e x || Sentence.eq e x) eqn:E; [reflexivity |].
  apply elem_of_cons in Hx as [-> | Hx].
  - unfold Sentence.same_object in E. rewrite Nat.eqb_refl in E. discriminate.
  - cbn [length]. rewrite (IH Hx). reflexivity.
Qed.

Lemma clean_inner_length (fuel : nat) (s : Sentence.t) (j : nat) (k : list Sentence.t) :
  (length (clean_inner fuel s j k) ≤ length k)%nat.
Proof.
  revert j k. induction fuel as [| fuel IH]; intros j k; cbn [clean_inner]; [lia |].
  destruct (k !! j) as [d |]; [| lia].
  etransitivity; [apply IH |].
  destruct (_ && _); [apply list_remove_first_length | lia].
Qed.

Lemma clean_inner_fuel (fuel n : nat) (s : Sentence.t) (j : nat) (k : list Sentence.t) :
  (length k ≤ fuel + j)%nat →
  clean_inner (fuel + n) s j k = clean_inner fuel s j k.
Proof.
  revert j k. induction fuel as [| fuel IH]; intros j k Hlen.
  - cbn [clean_inner Nat.add].
    assert (k !! j = None) as Hnone by (apply lookup_ge_None; lia).
    destruct n; cbn [clean_inner]; [reflexivity |]. rewrite Hnone. reflexivity.
  - cbn [clean_inner Nat.add]. destruct (k !! j) as [d |]; [| reflexivity].
    apply IH. destruct (_ && _).
    + pose proof (list_remove_first_length d k). lia.
    + lia.
Qed.

Lemma clean_outer_fuel (fuel n : nat) (i : nat) (k : list Sentence.t) :
  (length k ≤ fuel + i)%nat →
  clean_outer (fuel + n) i k = clean_outer fuel i k.
Proof.
  revert i k. induction fuel as [| fuel IH]; intros i k Hlen.
  - cbn [clean_outer Nat.add].
    assert (k !! i = None) as Hnone by (apply lookup_ge_None; lia).
    destruct n; cbn [clean_outer]; [reflexivity |]. rewrite Hnone. reflexivity.
  - cbn [clean_outer Nat.add]. destruct (k !! i) as [s |]; [| reflexivity].
    apply IH.
    etransitivity; [apply clean_inner_length |].
    destruct (Nat.eqb _ _).
    + pose proof (list_remove_first_length s k). lia.
    + lia.
Qed.

End CleanFuel.

(** The marks of the cells of a set do not depend on the order in which
    Python iterates over the set. *)
Section MarkOrder.

Lemma foldl_permutation {A B : Type} (f : A → B → A) (l1 l2 : list B) :
  (∀ a x y, f (f a x) y = f (f a y) x) →
  l1 ≡ₚ l2 → ∀ a, foldl f a l1 = foldl f a l2.
Proof.
  intros Hcomm Hperm. induction Hperm as [| x l1 l2 _ IH | x y l | l1 l2 l3 _ IH1 _ IH2];
    intros a; cbn [foldl].
  - reflexivity.
  - apply IH.
  - rewrite Hcomm. reflexivity.
  - rewrite IH1. apply IH2.
Qed.

Lemma sentence_mark_safe_comm (x y : cell) (s : Sentence.t) :
  Sentence.mark_safe y (Sentence.mark_safe x s)
  = Sentence.mark_safe x (Sentence.mark_safe y s).
Proof.
  unfold Sentence.mark_safe.
  destruct (bool_decide_reflect (x ∈ Sentence.cells s)) as [Hx | Hx];
    destruct (bool_decide_reflect (y ∈ Sentence.cells s)) as [Hy | Hy];
    cbn [Sentence.cells Sentence.count Sentence.sid];
    repeat match goal with
    | |- context [bool_decide (?c ∈ ?X)] => destruct (bool_decide_reflect (c ∈ X))
    end; cbn [Sentence.cells Sentence.count Sentence.sid];
    try reflexivity; try (exfalso; set_solver).
  all: f_equal; set_solver.
Qed.

Lemma sentence_mark_mine_comm (x y : cell) (s : Sentence.t) :
  Sentence.mark_mine y (Sentence.mark_mine x s)
  = Sentence.mark_mine x (Sentence.mark_mine y s).
Proof.
  unfold Sentence.mark_mine.
  destruct (bool_decide_reflect (x ∈ Sentence.cells s)) as [Hx | Hx];
    destruct (bool_decide_reflect (y ∈ Sentence.cells s)) as [Hy | Hy];
    cbn [Sentence.cells Sentence.count Sentence.sid];
    repeat match goal with
    | |- context [bool_decide (?c ∈ ?X)] => destruct (bool_decide_reflect (c ∈ X))
    end; cbn [Sentence.cells Sentence.count Sentence.sid];
    try reflexivity; try (exfalso; set_solver).
  all: f_equal; first [lia | set_solver].
Qed.

Lemma mark_safe_comm (x y : cell) (st : MinesweeperAI.t) :
  mark_safe y (mark_safe x st) = mark_safe x (mark_safe y st).
Proof.
  unfold mark_safe. cbn. f_equal.
  - set_solver.
  - rewrite !map_map. apply map_ext. intros s. apply sentence_mark_safe_comm.
Qed.

Lemma mark_mine_comm (x y : cell) (st : MinesweeperAI.t) :
  mark_mine y (mark_mine x st) = mark_mine x (mark_mine y st).
Proof.
  unfold mark_mine. cbn. f_equal.
  - set_solver.
  - rewrite !map_map. apply map_ext. intros s. apply sentence_mark_mine_comm.
Qed.

Lemma mark_all_safe_any_order (cs : gset cell) (order : list cell) (st : MinesweeperAI.t) :
  order ≡ₚ elements cs →
  foldl (fun st c => mark_safe c st) st order = mark_all_safe cs st.
Proof.
  intros Hperm. unfold mark_all_safe.
  apply foldl_permutation; [| exact Hperm].
  intros a x y. apply mark_safe_comm.
Qed.

Lemma mark_all_mines_any_order (cs : gset cell) (order : list cell) (st : MinesweeperAI.t) :
  order ≡ₚ elements cs →
  foldl (fun st c => mark_mine c st) st order = mark_all_mines cs st.
Proof.
  intros Hperm. unfold mark_all_mines.
  apply foldl_permutation; [| exact Hperm].
  intros a x y. apply mark_mine_comm.
Qed.

End MarkOrder.

(** ** Known safe cells are not cells of sentences *)

Section SafeReduced.

Lemma cells_mark_safe (c : cell) (s : Sentence.t) :
  Sentence.cells (Sentence.mark_safe c s) = Sentence.cells s ∖ {[c]}.
Proof.
  unfold Sentence.mark_safe.
  destruct (bool_decide_reflect (c ∈ Sentence.cells s)); [reflexivity | set_solver].
Qed.

Lemma cells_mark_mine (c : cell) (s : Sentence.t) :
  Sentence.cells (Sentence.mark_mine c s) = Sentence.cells s ∖ {[c]}.
Proof.
  unfold Sentence.mark_mine.
  destruct (bool_decide_reflect (c ∈ Sentence.cells s)); [reflexivity | set_solver].
Qed.

Lemma safe_reduced_mark_safe (c : cell) (st : MinesweeperAI.t) :
  safe_reduced st → safe_reduced (mark_safe c st).
Proof.
  unfold safe_reduced. cbn. intros Hst s Hs x Hx.
  apply list_elem_of_fmap in Hs as (s0 & -> & Hs0).
  rewrite cells_mark_safe in Hx. apply elem_of_difference in Hx as [Hx Hne].
  intros Hin. apply elem_of_union in Hin as [Hin | Hin]; [exact (Hne Hin) |].
  exact (Hst s0 Hs0 x Hx Hin).
Qed.

Lemma safe_reduced_mark_mine (c : cell) (st : MinesweeperAI.t) :
  safe_reduced st → safe_reduced (mark_mine c st).
Proof.
  unfold safe_reduced. cbn. intros Hst s Hs x Hx.
  apply list_elem_of_fmap in Hs as (s0 & -> & Hs0).
  rewrite cells_mark_mine in Hx. apply elem_of_difference in Hx as [Hx _].
  exact (Hst s0 Hs0 x Hx).
Qed.

Lemma safe_reduced_append (cs : gset cell) (n : Z) (st : MinesweeperAI.t) :
  (∀ c, c ∈ cs → c ∉ safes st) → safe_reduced st →
  safe_reduced (append_sentence cs n st).
Proof.
  unfold safe_reduced. cbn. intros Hcs Hst s Hs x Hx.
  apply elem_of_app in Hs as [Hs | Hs]; [exact (Hst s Hs x Hx) |].
  apply list_elem_of_singleton in Hs as ->. exact (Hcs x Hx).
Qed.

Lemma safe_reduced_subseteq (k : list Sentence.t) (st : MinesweeperAI.t) :
  k ⊆ knowledge st → safe_reduced st → safe_reduced (with_knowledge k st).
Proof. unfold safe_reduced. cbn. intros Hk Hst s Hs. apply Hst, Hk, Hs. Qed.

Lemma safe_reduced_sweep_at (st : MinesweeperAI.t) (i : nat) :
  safe_reduced st → safe_reduced (sweep_at st i).
Proof.
  intros Hst. unfold sweep_at.
  set (st1 := match knowledge st !! i with
              | Some sentence => _
              | None => st
              end).
  assert (safe_reduced st1) as H1.
  { subst st1. destruct (knowledge st !! i) as [s |]; [| exact Hst].
    destruct (truthy (Sentence.known_safes s)); [| exact Hst].
    apply (foldl_preserves safe_reduced); [| exact Hst].
    intros st' c _. apply safe_reduced_mark_safe. }
  destruct (knowledge st1 !! i) as [s |]; [| exact H1].
  destruct (truthy (Sentence.known_mines s)); [| exact H1].
  apply (foldl_preserves safe_reduced); [| exact H1].
  intros st' c _. apply safe_reduced_mark_mine.
Qed.

Lemma safe_reduced_deduce_knowledge (st : MinesweeperAI.t) :
  safe_reduced st → safe_reduced (deduce_knowledge st).
Proof.
  intros Hst. destruct (deduce_knowledge_parts st) as (new & Hk & Hnew & Hs).
  unfold safe_reduced. rewrite Hk, Hs. intros s Hin x Hx.
  apply elem_of_app in Hin as [Hin | Hin]; [exact (Hst s Hin x Hx) |].
  destruct (Hnew s Hin) as (A & HA & Hsub). exact (Hst A HA x (Hsub x Hx)).
Qed.

Lemma safe_reduced_add_knowledge (c : cell) (n : Z) (st : MinesweeperAI.t) :
  safe_reduced st → safe_reduced (add_knowledge c n st).
Proof.
  intros Hst.
  assert (safe_reduced (record_move c st)) as H1.
  { unfold record_move. apply safe_reduced_mark_safe. exact Hst. }
  assert (safe_reduced (observe c n st)) as H2.
  { unfold observe.
    set (st2 := if 0 <? n then _ else record_move c st).
    assert (safe_reduced st2) as H2.
    { subst st2. destruct (0 <? n); [| exact H1].
      apply safe_reduced_append; [| exact H1].
      intros x Hx. apply elem_of_new_sentence_cells in Hx. tauto. }
    destruct (n =? 0); [| exact H2].
    apply (foldl_preserves safe_reduced); [| exact H2].
    intros st' x _ Hst'. destruct (bool_decide (x ∈ safes st')); [exact Hst' |].
    apply safe_reduced_mark_safe. exact Hst'. }
  unfold add_knowledge. destruct (_ <? _)%nat; [exact H2 |].
  apply safe_reduced_subseteq; [apply clean_outer_subseteq |].
  apply safe_reduced_deduce_knowledge.
  apply (foldl_preserves safe_reduced); [| exact H2].
  intros st' i _. apply safe_reduced_sweep_at.
Qed.

(** After any calls of [add_knowledge], whatever they give. *)
Lemma safe_reduced_run (h w : Z) (obs : list (cell * Z)) :
  safe_reduced (run h w obs).
Proof.
  apply (foldl_preserves safe_reduced).
  - intros st o _. apply safe_reduced_add_knowledge.
  - intros s Hs. apply elem_of_nil in Hs. contradiction.
Qed.

End SafeReduced.

(** C2 fails on the code.  The sentence that [add_knowledge] builds leaves out
    the cells of [self.safes] but not those of [self.mines]: on the 2 x 4
    board, after the observations of (0,0) and (0,2), the cells (0,1) and (1,1)
    are known mines and are cells of the sentence in the knowledge base.  The
    half of the claim about safe cells holds: after any calls of
    [add_knowledge], no known safe cell is a cell of a sentence. *)
Theorem known_mine_in_new_sentence :
  (let obs := map (observation board_2x4) [(0, 0); (0, 2)] in
   obs = [((0, 0), 3); ((0, 2), 3)]
   ∧ mines (run 2 4 obs) = {[ (0, 1); (1, 0); (1, 1) ]}
   ∧ knowledge (run 2 4 obs)
     = [Sentence.mk 1 {[ (0, 1); (0, 3); (1, 1); (1, 2); (1, 3) ]} 3])
  ∧ (∀ h w obs, safe_reduced (run h w obs)).
Proof.
  split; [| exact safe_reduced_run].
  cbv zeta. repeat split; vm_compute; reflexivity.
Qed.

Lemma moves_made_subset_safes_witness :
  fst (make_safe_move [(0, 0)] (run 1 2 [((0, 0), 1)])) = None
  ∧ ∀ c, c ∈ safes (run 1 2 [((0, 0), 1)]) → c ∈ moves_made (run 1 2 [((0, 0), 1)]).
Proof.
  destruct moves_made_subset_safes as (_ & _ & _ & _ & _ & _ & Hrun & _ & H).
  apply H; [apply Hrun | vm_compute; reflexivity].
Defined.

(** ** Further properties *)

(** The scenario of the 1 x 2 grid with a mine at (0,1): the observation of
    (0,0) gives the sentence {(0,1)} = 1, the sweep marks (0,1) as a mine, the
    knowledge base is empty after the cleanup, and both move queries return
    nothing. *)
Theorem scenario_1x2 :
  let st := run 1 2 [observation board_1x2 (0, 0)] in
  observation board_1x2 (0, 0) = ((0, 0), 1)
  ∧ map content (knowledge (observe (0, 0) 1 (init 1 2))) = [({[ (0, 1) ]}, 1)]
  ∧ mines st = {[ (0, 1) ]}
  ∧ safes st = {[ (0, 0) ]}
  ∧ knowledge st = []
  ∧ fst (make_safe_move (elements (safes st)) st) = None
  ∧ fst (make_random_move [] st) = Returned None.
Proof. cbv zeta. repeat split; vm_compute; reflexivity. Qed.

Lemma mark_neighbors_safe_all (ns : list cell) (st : MinesweeperAI.t) (n : cell) :
  n ∈ ns → n ∈ safes (mark_neighbors_safe ns st).
Proof.
  revert st. induction ns as [| x ns IH]; intros st Hn;
    [apply elem_of_nil in Hn; contradiction |].
  unfold mark_neighbors_safe. cbn [foldl]. fold (mark_neighbors_safe ns).
  apply elem_of_cons in Hn as [-> | Hn]; [| apply IH, Hn].
  set (st' := if bool_decide (x ∈ safes st) then st else mark_safe x st).
  assert (x ∈ safes st') as Hx.
  { subst st'. destruct (bool_decide_reflect (x ∈ safes st)) as [Hin | _]; [exact Hin |].
    cbn. apply elem_of_union_l, elem_of_singleton. reflexivity. }
  destruct (grows_mark_neighbors_safe ns st') as (_ & _ & _ & Hs & _).
  apply Hs, Hx.
Qed.

Lemma mark_neighbors_safe_length (ns : list cell) (st : MinesweeperAI.t) :
  length (knowledge (mark_neighbors_safe ns st)) = length (knowledge st).
Proof.
  apply (foldl_preserves (fun st' => length (knowledge st') = length (knowledge st)));
    [| reflexivity].
  intros st' x _ Hlen. destruct (bool_decide (x ∈ safes st')); [exact Hlen |].
  cbn. rewrite length_map. exact Hlen.
Qed.

(** The observation of a cell with count 0: every cell of [get_neighbors] is
    a known safe cell after the call, and the call adds no sentence for the
    observation (before the sweep the knowledge base has the sentences it
    had). *)
Theorem count_zero_marks_neighbors (c : cell) (st : MinesweeperAI.t) :
  (∀ n, n ∈ get_neighbors st c → n ∈ safes (add_knowledge c 0 st))
  ∧ length (knowledge (observe c 0 st)) = length (knowledge st).
Proof.
  split.
  - intros n Hn.
    assert (n ∈ safes (observe c 0 st)) as Hobs.
    { unfold observe. cbn [Z.ltb Z.eqb Z.compare].
      apply mark_neighbors_safe_all. exact Hn. }
    unfold add_knowledge. destruct (_ <? _)%nat; [exact Hobs |].
    destruct (grows_sweep (observe c 0 st)) as (_ & _ & _ & H1 & _).
    destruct (grows_deduce_knowledge (sweep (observe c 0 st))) as (_ & _ & _ & H2 & _).
    destruct (grows_clean_knowledge (deduce_knowledge (sweep (observe c 0 st))))
      as (_ & _ & _ & H3 & _).
    apply H3, H2, H1, Hobs.
  - unfold observe. cbn [Z.ltb Z.eqb Z.compare].
    rewrite mark_neighbors_safe_length. cbn. apply length_map.
Qed.

(** The marks that a sentence triggers are the same in whatever order the
    copy of its set of cells is iterated. *)
Theorem marks_any_order (cs : gset cell) (order : list cell) (st : MinesweeperAI.t) :
  order ≡ₚ elements cs →
  foldl (fun st c => mark_safe c st) st order = mark_all_safe cs st
  ∧ foldl (fun st c => mark_mine c st) st order = mark_all_mines cs st.
Proof.
  intros Hperm. split;
    [apply mark_all_safe_any_order | apply mark_all_mines_any_order]; exact Hperm.
Qed.

Lemma marks_any_order_witness :
  let st := with_knowledge [Sentence.mk 0 {[ (0, 0); (0, 1); (1, 1) ]} 2;
                            Sentence.mk 1 {[ (0, 1); (1, 0) ]} 1] (init 2 2) in
  elements ({[ (0, 0); (0, 1) ]} : gset cell) = [(0, 1); (0, 0)]
  ∧ foldl (fun st c => mark_safe c st) st [(0, 0); (0, 1)]
    = mark_all_safe {[ (0, 0); (0, 1) ]} st
  ∧ foldl (fun st c => mark_mine c st) st [(0, 0); (0, 1)]
    = mark_all_mines {[ (0, 0); (0, 1) ]} st.
Proof.
  split; [vm_compute; reflexivity |].
  apply (marks_any_order {[ (0, 0); (0, 1) ]} [(0, 0); (0, 1)]).
  apply NoDup_Permutation.
  - apply NoDup_cons. split; [| apply NoDup_singleton].
    intros H. apply list_elem_of_singleton in H. discriminate H.
  - apply NoDup_elements.
  - intros c. rewrite elem_of_elements, !elem_of_cons, elem_of_nil,
      elem_of_union, !elem_of_singleton. tauto.
Defined.

(** The loops of [clean_knowledge] end by themselves (more fuel than the
    length of the list changes nothing) and only remove sentences: every
    sentence left was in the knowledge base, and nothing else changes. *)
Theorem clean_knowledge_removes_only (st : MinesweeperAI.t) :
  (∀ n, clean_outer (length (knowledge st) + n) 0 (knowledge st)
        = knowledge (clean_knowledge st))
  ∧ knowledge (clean_knowledge st) ⊆ knowledge st
  ∧ moves_made (clean_knowledge st) = moves_made st
  ∧ mines (clean_knowledge st) = mines st
  ∧ safes (clean_knowledge st) = safes st.
Proof.
  split; [| split; [apply clean_outer_subseteq | repeat split]].
  intros n. apply clean_outer_fuel. lia.
Qed.

(** * More of the code *)

(** ** Minesweeper.nearby_mines *)

Lemma mine_at_range (g : Minesweeper.t) (p : cell) : 0 ≤ mine_at g p ≤ 1.
Proof.
  unfold mine_at. destruct (_ && _); [| lia].
  destruct (Minesweeper.board_at g (fst p) (snd p)); lia.
Qed.

Lemma mine_at_one (g : Minesweeper.t) (p : cell) :
  mine_at g p = 1 ↔ on_board g p ∧ Minesweeper.is_mine g p = true.
Proof.
  unfold mine_at, on_board, Minesweeper.is_mine.
  destruct ((0 <=? fst p) && (fst p <? Minesweeper.height g)
            && (0 <=? snd p) && (snd p <? Minesweeper.width g)) eqn:E.
  - rewrite !andb_true_iff, !Z.leb_le, !Z.ltb_lt in E.
    destruct (Minesweeper.board_at g (fst p) (snd p)).
    + split; [intros _; split; [lia | reflexivity] | intros _; reflexivity].
    + split; [intros H; discriminate H | intros [_ H]; discriminate H].
  - split; [lia |]. intros [Hb _]. exfalso.
    rewrite !andb_false_iff, !Z.leb_gt, !Z.ltb_ge in E. lia.
Qed.

(** [nearby_mines] returns the number of cells that are on the board, within
    one row and one column of the cell, other than the cell, and hold a mine;
    this is between 0 and 8. *)
Theorem nearby_mines_counts (g : Minesweeper.t) (c : cell) :
  ∃ S : gset cell,
    (∀ p, p ∈ S ↔ adjacent c p ∧ on_board g p ∧ Minesweeper.is_mine g p = true)
    ∧ Minesweeper.nearby_mines g c = Z.of_nat (size S)
    ∧ 0 ≤ Minesweeper.nearby_mines g c ≤ 8.
Proof.
  set (st := init (Minesweeper.height g) (Minesweeper.width g)).
  set (N := list_to_set (get_neighbors st c) : gset cell).
  assert (∀ p, p ∈ N ↔ on_board g p ∧ fst c - 1 ≤ fst p ≤ fst c + 1
                        ∧ snd c - 1 ≤ snd p ≤ snd c + 1) as HN.
  { intros [x y]. destruct c as [i j]. subst N. rewrite elem_of_list_to_set.
    rewrite get_neighbors_elem, in_bounds_iff. unfold on_board. cbn. tauto. }
  exists (mines_among g (N ∖ {[c]})). split; [| split].
  - intros p. rewrite elem_of_mines_among, elem_of_difference, elem_of_singleton, HN.
    unfold adjacent. tauto.
  - assert (mines_among g (N ∖ {[c]}) = mines_among g N ∖ {[c]}) as ->.
    { apply set_eq. intros x.
      rewrite elem_of_difference, !elem_of_mines_among, elem_of_difference. tauto. }
    pose proof (neighbors_mines_sum g st eq_refl eq_refl (fst c) (snd c)) as Hsum.
    pose proof (nearby_mines_sum g (fst c) (snd c)) as Hnear.
    replace (fst c, snd c) with c in * by (destruct c; reflexivity).
    fold N in Hsum.
    assert (Z.of_nat (size (mines_among g N ∖ {[c]}))
            = Z.of_nat (size (mines_among g N)) - mine_at g c) as ->; [| lia].
    pose proof (mine_at_range g c) as Hr. pose proof (mine_at_one g c) as H1.
    destruct (decide (c ∈ mines_among g N)) as [Hin | Hnin].
    + assert ({[c]} ⊆ mines_among g N) as Hsub
        by (intros x Hx; apply elem_of_singleton in Hx as ->; exact Hin).
      rewrite (size_difference _ _ Hsub), size_singleton.
      apply subseteq_size in Hsub. rewrite size_singleton in Hsub.
      apply elem_of_mines_among in Hin as [Hm Hin]. apply HN in Hin as [Hb _].
      assert (mine_at g c = 1) by (apply H1; split; assumption). lia.
    + assert (mines_among g N ∖ {[c]} = mines_among g N) as ->.
      { apply set_eq. intros x. rewrite elem_of_difference, elem_of_singleton.
        split; [tauto |]. intros Hx. split; [exact Hx |]. intros ->. exact (Hnin Hx). }
      assert (mine_at g c ≠ 1); [| lia].
      intros Hone. apply H1 in Hone as [Hb Hm]. apply Hnin.
      apply elem_of_mines_among. split; [exact Hm |]. apply HN. split; [exact Hb | lia].
  - destruct c as [i j]. rewrite nearby_mines_sum.
    pose proof (mine_at_range g (i - 1, j - 1)). pose proof (mine_at_range g (i - 1, j)).
    pose proof (mine_at_range g (i - 1, j + 1)). pose proof (mine_at_range g (i, j - 1)).
    pose proof (mine_at_range g (i, j + 1)). pose proof (mine_at_range g (i + 1, j - 1)).
    pose proof (mine_at_range g (i + 1, j)). pose proof (mine_at_range g (i + 1, j + 1)).
    lia.
Qed.

(** ** What the agent knows is true of the board *)

(** A cell that [make_safe_move] returns holds no mine, when the calls of
    [add_knowledge] gave cells of the board without a mine and the counts of
    the board. *)
Theorem safe_move_is_safe (g : Minesweeper.t) (cs order : list cell) (c : cell) :
  Forall (playable g) cs →
  order ≡ₚ elements
    (safes (run (Minesweeper.height g) (Minesweeper.width g) (map (observation g) cs))) →
  fst (make_safe_move order
         (run (Minesweeper.height g) (Minesweeper.width g) (map (observation g) cs)))
  = Some c →
  Minesweeper.is_mine g c = false
  ∧ c ∈ safes (run (Minesweeper.height g) (Minesweeper.width g) (map (observation g) cs))
  ∧ (c ∉ moves_made
         (run (Minesweeper.height g) (Minesweeper.width g) (map (observation g) cs))).
Proof.
  intros Hcs Hperm Hres.
  pose proof (sound_run g cs Hcs) as (_ & _ & Hs & _).
  pose proof (make_safe_move_result order _
                (run_moves_subset_safes _ _ (map (observation g) cs)) Hperm) as Hr.
  rewrite Hres in Hr. destruct Hr as [Hin Hnot].
  split; [apply Hs, Hin |]. split; assumption.
Qed.

Lemma safe_move_is_safe_witness :
  Minesweeper.is_mine board_1x3_end (0, 1) = false
  ∧ (0, 1) ∈ safes (run 1 3 (map (observation board_1x3_end) [(0, 0)]))
  ∧ ((0, 1) ∉ moves_made (run 1 3 (map (observation board_1x3_end) [(0, 0)]))).
Proof.
  apply (safe_move_is_safe board_1x3_end [(0, 0)]
           (elements (safes (run 1 3 (map (observation board_1x3_end) [(0, 0)]))))).
  - repeat constructor; cbn; lia.
  - reflexivity.
  - vm_compute. reflexivity.
Defined.

(** Every sentence of the knowledge base has a count between 0 and the number
    of its cells, and every known mine is a mine of the board, under the same
    condition on the calls. *)
Theorem sentences_well_counted (g : Minesweeper.t) (cs : list cell) :
  Forall (playable g) cs →
  Forall (fun s => 0 ≤ Sentence.count s ≤ Z.of_nat (size (Sentence.cells s)))
         (knowledge (run (Minesweeper.height g) (Minesweeper.width g)
                       (map (observation g) cs)))
  ∧ (∀ c, c ∈ mines (run (Minesweeper.height g) (Minesweeper.width g)
                       (map (observation g) cs)) →
          Minesweeper.is_mine g c = true).
Proof.
  intros Hcs. pose proof (sound_run g cs Hcs) as (_ & _ & _ & Hm & Hk).
  split; [| exact Hm].
  eapply Forall_impl; [exact Hk |]. intros s Hs. unfold holds in Hs.
  pose proof (subseteq_size _ _ (mines_among_subseteq g (Sentence.cells s))). lia.
Qed.

Lemma sentences_well_counted_witness :
  Forall (fun s => 0 ≤ Sentence.count s ≤ Z.of_nat (size (Sentence.cells s)))
         (knowledge (run 2 3 (map (observation board_2x3) [(1, 0); (1, 2); (1, 1)])))
  ∧ (∀ c, c ∈ mines (run 2 3 (map (observation board_2x3) [(1, 0); (1, 2); (1, 1)])) →
          Minesweeper.is_mine board_2x3 c = true).
Proof.
  apply (sentences_well_counted board_2x3 [(1, 0); (1, 2); (1, 1)]).
  repeat constructor; cbn; lia.
Defined.

(** ** The cells of the grid *)

Section Grid.

Lemma elem_of_range (lo hi x : Z) : x ∈ range lo hi ↔ lo ≤ x < hi.
Proof.
  unfold range. rewrite list_elem_of_fmap. split.
  - intros (k & -> & Hk). apply elem_of_seq in Hk. lia.
  - intros Hx. exists (Z.to_nat (x - lo)). split; [lia |]. apply elem_of_seq. lia.
Qed.

Lemma NoDup_range (lo hi : Z) : NoDup (range lo hi).
Proof.
  unfold range. apply NoDup_fmap_2; [| apply NoDup_seq].
  intros a b Hab. lia.
Qed.

Lemma length_range (lo hi : Z) : length (range lo hi) = Z.to_nat (hi - lo).
Proof. unfold range. rewrite length_map, length_seq. reflexivity. Qed.

Lemma NoDup_pairs (rows cols : list Z) :
  NoDup rows → NoDup cols →
  NoDup (flat_map (fun i => map (fun j => (i, j)) cols) rows).
Proof.
  intros Hrows Hcols. induction Hrows as [| i rows Hi Hrows IH]; cbn [flat_map].
  - apply NoDup_nil. exact I.
  - apply NoDup_app. split; [| split; [| exact IH]].
    + apply NoDup_fmap_2; [| exact Hcols]. intros a b [= ->]. reflexivity.
    + intros [x y] Hx Hin. apply list_elem_of_fmap in Hx as (j & [= -> ->] & _).
      apply list_elem_of_In, in_flat_map in Hin as (i' & Hi' & Hin).
      apply list_elem_of_In, list_elem_of_fmap in Hin as (j' & [= -> ->] & _).
      apply Hi, list_elem_of_In, Hi'.
Qed.

Lemma length_pairs (rows cols : list Z) :
  length (flat_map (fun i => map (fun j => (i, j)) cols) rows)
  = (length rows * length cols)%nat.
Proof.
  induction rows as [| i rows IH]; cbn [flat_map length]; [reflexivity |].
  rewrite length_app, length_map, IH. lia.
Qed.

Lemma elem_of_grid_cells (h w : Z) (p : cell) :
  p ∈ grid_cells h w ↔ 0 ≤ fst p < h ∧ 0 ≤ snd p < w.
Proof.
  unfold grid_cells. rewrite elem_of_list_to_set, list_elem_of_In, in_flat_map. split.
  - intros (i & Hi & Hp). apply list_elem_of_In, list_elem_of_fmap in Hp as (j & -> & Hj).
    apply list_elem_of_In, elem_of_range in Hi. apply elem_of_range in Hj. cbn. lia.
  - intros [Hi Hj]. exists (fst p). split.
    + apply list_elem_of_In, elem_of_range. lia.
    + apply list_elem_of_In, list_elem_of_fmap. exists (snd p).
      split; [destruct p; reflexivity | apply elem_of_range; lia].
Qed.

Lemma size_grid_cells (h w : Z) :
  0 ≤ h → h = 0 ∨ 0 ≤ w → Z.of_nat (size (grid_cells h w)) = h * w.
Proof.
  intros Hh Hw. unfold grid_cells.
  rewrite size_list_to_set by (apply NoDup_pairs; apply NoDup_range).
  rewrite length_pairs, !length_range. destruct Hw as [-> | Hw]; [reflexivity |]. nia.
Qed.

Lemma get_neighbors_in_grid (st : MinesweeperAI.t) (c n : cell) :
  n ∈ get_neighbors st c → n ∈ grid_cells (height st) (width st).
Proof.
  destruct c as [i j], n as [x y]. intros Hn.
  apply get_neighbors_elem in Hn as [Hb _]. apply in_bounds_iff in Hb.
  apply elem_of_grid_cells. exact Hb.
Qed.

End Grid.

(** ** The agent holds cells of the grid only *)

Section Within.

Variable G : gset cell.

Lemma within_mark_safe (c : cell) (st : MinesweeperAI.t) :
  c ∈ G → within G st → within G (mark_safe c st).
Proof.
  intros Hc (Hm & Hs & Hmi & Hk). unfold within. cbn.
  split; [exact Hm |]. split; [| split; [exact Hmi |]].
  - intros x Hx. apply elem_of_union in Hx as [Hx | Hx]; [| exact (Hs x Hx)].
    apply elem_of_singleton in Hx as ->. exact Hc.
  - intros s Hin x Hx. apply list_elem_of_fmap in Hin as (s0 & -> & Hs0).
    rewrite cells_mark_safe in Hx. apply elem_of_difference in Hx as [Hx _].
    exact (Hk s0 Hs0 x Hx).
Qed.

Lemma within_mark_mine (c : cell) (st : MinesweeperAI.t) :
  c ∈ G → within G st → within G (mark_mine c st).
Proof.
  intros Hc (Hm & Hs & Hmi & Hk). unfold within. cbn.
  split; [exact Hm |]. split; [exact Hs |]. split.
  - intros x Hx. apply elem_of_union in Hx as [Hx | Hx]; [| exact (Hmi x Hx)].
    apply elem_of_singleton in Hx as ->. exact Hc.
  - intros s Hin x Hx. apply list_elem_of_fmap in Hin as (s0 & -> & Hs0).
    rewrite cells_mark_mine in Hx. apply elem_of_difference in Hx as [Hx _].
    exact (Hk s0 Hs0 x Hx).
Qed.

Lemma within_append (cs : gset cell) (n : Z) (st : MinesweeperAI.t) :
  cs ⊆ G → within G st → within G (append_sentence cs n st).
Proof.
  intros Hcs (Hm & Hs & Hmi & Hk). unfold within. cbn.
  repeat (split; [assumption |]).
  intros s Hin. apply elem_of_app in Hin as [Hin | Hin]; [exact (Hk s Hin) |].
  apply list_elem_of_singleton in Hin as ->. exact Hcs.
Qed.

Lemma within_lookup (st : MinesweeperAI.t) (i : nat) (s : Sentence.t) :
  within G st → knowledge st !! i = Some s → Sentence.cells s ⊆ G.
Proof.
  intros (_ & _ & _ & Hk) Hi. apply Hk. eapply list_elem_of_lookup_2. exact Hi.
Qed.

Lemma known_safes_cells (s : Sentence.t) :
  default ∅ (Sentence.known_safes s) ⊆ Sentence.cells s.
Proof.
  unfold Sentence.known_safes. destruct (_ =? _); cbn; [reflexivity |].
  apply empty_subseteq.
Qed.

Lemma known_mines_cells (s : Sentence.t) :
  default ∅ (Sentence.known_mines s) ⊆ Sentence.cells s.
Proof.
  unfold Sentence.known_mines. destruct (_ =? _); cbn; [reflexivity |].
  apply empty_subseteq.
Qed.

Lemma within_sweep_at (st : MinesweeperAI.t) (i : nat) :
  within G st → within G (sweep_at st i).
Proof.
  intros Hst. unfold sweep_at.
  set (st1 := match knowledge st !! i with
              | Some sentence => _
              | None => st
              end).
  assert (within G st1) as H1.
  { subst st1. destruct (knowledge st !! i) as [s |] eqn:Hi; [| exact Hst].
    destruct (truthy (Sentence.known_safes s)); [| exact Hst].
    apply (foldl_preserves (within G)); [| exact Hst].
    intros st' c Hc. apply within_mark_safe.
    apply (within_lookup st i s Hst Hi), known_safes_cells, elem_of_elements, Hc. }
  destruct (knowledge st1 !! i) as [s |] eqn:Hi; [| exact H1].
  destruct (truthy (Sentence.known_mines s)); [| exact H1].
  apply (foldl_preserves (within G)); [| exact H1].
  intros st' c Hc. apply within_mark_mine.
  apply (within_lookup st1 i s H1 Hi), known_mines_cells, elem_of_elements, Hc.
Qed.

Lemma within_deduce_knowledge (st : MinesweeperAI.t) :
  within G st → within G (deduce_knowledge st).
Proof.
  intros (Hm & Hs & Hmi & Hk).
  destruct (deduce_knowledge_parts st) as (new & Hknow & Hnew & _).
  unfold within. rewrite Hknow.
  unfold deduce_knowledge.
  destruct (append_all_fields (deductions (knowledge st)) st) as (_ & _ & -> & -> & ->).
  repeat (split; [assumption |]).
  intros s Hin. apply elem_of_app in Hin as [Hin | Hin]; [exact (Hk s Hin) |].
  destruct (Hnew s Hin) as (A & HA & Hsub). etransitivity; [exact Hsub | exact (Hk A HA)].
Qed.

Lemma within_clean_knowledge (st : MinesweeperAI.t) :
  within G st → within G (clean_knowledge st).
Proof.
  intros (Hm & Hs & Hmi & Hk). unfold within, clean_knowledge. cbn.
  repeat (split; [assumption |]).
  intros s Hin. apply Hk. exact (clean_outer_subseteq _ _ _ s Hin).
Qed.

End Within.

Lemma within_add_knowledge (c : cell) (n : Z) (st : MinesweeperAI.t) :
  c ∈ grid_cells (height st) (width st) →
  within (grid_cells (height st) (width st)) st →
  within (grid_cells (height st) (width st)) (add_knowledge c n st).
Proof.
  set (G := grid_cells (height st) (width st)). intros Hc Hst.
  assert (within G (record_move c st)) as H1.
  { unfold record_move. apply within_mark_safe; [exact Hc |].
    destruct Hst as (Hm & Hs & Hmi & Hk). unfold within. cbn.
    split; [| auto]. intros x Hx. apply elem_of_union in Hx as [Hx | Hx]; [| auto].
    apply elem_of_singleton in Hx as ->. exact Hc. }
  assert (∀ x, x ∈ get_neighbors (record_move c st) c → x ∈ G) as Hnb.
  { intros x Hx. exact (get_neighbors_in_grid (record_move c st) c x Hx). }
  assert (within G (observe c n st)) as H2.
  { unfold observe.
    set (st2 := if 0 <? n then _ else record_move c st).
    assert (within G st2) as H2.
    { subst st2. destruct (0 <? n); [| exact H1].
      apply within_append; [| exact H1].
      intros x Hx. apply elem_of_new_sentence_cells in Hx as [Hx _]. exact (Hnb x Hx). }
    destruct (n =? 0); [| exact H2].
    apply (foldl_preserves (within G)); [| exact H2].
    intros st' x Hx Hst'. destruct (bool_decide (x ∈ safes st')); [exact Hst' |].
    apply within_mark_safe; [exact (Hnb x Hx) | exact Hst']. }
  unfold add_knowledge. destruct (_ <? _)%nat; [exact H2 |].
  apply within_clean_knowledge, within_deduce_knowledge.
  apply (foldl_preserves (within G)); [| exact H2].
  intros st' i _. apply within_sweep_at.
Qed.

Lemma run_dimensions (h w : Z) (obs : list (cell * Z)) :
  height (run h w obs) = h ∧ width (run h w obs) = w.
Proof.
  unfold run.
  apply (foldl_preserves (fun st => height st = h ∧ width st = w)); [| split; reflexivity].
  intros st o _ [Hh Hw].
  destruct (grows_add_knowledge (fst o) (snd o) st) as (Hh' & Hw' & _).
  rewrite Hh', Hw'. cbn. split; assumption.
Qed.

Lemma within_run (h w : Z) (obs : list (cell * Z)) :
  Forall (fun o => fst o ∈ grid_cells h w) obs →
  within (grid_cells h w) (run h w obs).
Proof.
  intros Hobs. unfold run.
  apply (foldl_preserves
           (fun st => (height st = h ∧ width st = w) ∧ within (grid_cells h w) st)).
  - intros st o Ho [[Hh Hw] Hst]. split.
    + destruct (grows_add_knowledge (fst o) (snd o) st) as (Hh' & Hw' & _).
      rewrite Hh', Hw'. cbn. split; assumption.
    + pose proof (within_add_knowledge (fst o) (snd o) st) as H.
      rewrite Hh, Hw in H. apply H; [| exact Hst].
      exact (proj1 (Forall_forall _ _) Hobs o Ho).
  - split; [split; reflexivity |]. unfold within, init. cbn.
    repeat split; try apply empty_subseteq.
    intros s Hs. apply elem_of_nil in Hs. contradiction.
Qed.

(** ** make_random_move and the cells that are left *)

Section RandomMoveLeft.

Variable g : Minesweeper.t.
Variable cs : list cell.
Hypothesis Hwf : Minesweeper.well_formed g.
Hypothesis Hcs : Forall (playable g) cs.

Let st : MinesweeperAI.t :=
  run (Minesweeper.height g) (Minesweeper.width g) (map (observation g) cs).
Let G : gset cell := grid_cells (Minesweeper.height g) (Minesweeper.width g).

Lemma left_within : within G st.
Proof.
  apply within_run. apply Forall_fmap. eapply Forall_impl; [exact Hcs |].
  intros c [Hb _]. cbn. apply elem_of_grid_cells. exact Hb.
Qed.

Lemma left_disjoint : moves_made st ## mines st.
Proof.
  pose proof (sound_run g cs Hcs) as (_ & _ & Hs & Hm & _).
  pose proof (run_moves_subset_safes (Minesweeper.height g) (Minesweeper.width g)
                (map (observation g) cs)) as Hsub.
  intros c H1 H2. apply Hsub, Hs in H1. apply Hm in H2. fold st in H1. congruence.
Qed.

Lemma left_size_grid :
  Z.of_nat (size G) = Minesweeper.width g * Minesweeper.height g.
Proof.
  destruct Hwf as [Hlen Hrows]. subst G.
  rewrite size_grid_cells; [lia | lia |].
  destruct (Minesweeper.board g) as [| row rows] eqn:E; [left; cbn in Hlen; lia |].
  right. apply Forall_cons in Hrows as [Hrow _]. lia.
Qed.

Lemma left_guard :
  Z.of_nat (size (moves_made st))
  = width st * height st - Z.of_nat (size (mines st))
  ↔ moves_made st ∪ mines st = G.
Proof.
  destruct left_within as (Hm & _ & Hmi & _).
  destruct (run_dimensions (Minesweeper.height g) (Minesweeper.width g)
              (map (observation g) cs)) as [Hh Hw].
  fold st in Hh, Hw. rewrite Hh, Hw, <- left_size_grid.
  pose proof (size_union _ _ left_disjoint) as Hsize.
  assert (moves_made st ∪ mines st ⊆ G) as Hsub by (apply union_least; assumption).
  split.
  - intros Heq. apply set_subseteq_size_eq; [exact Hsub | lia].
  - intros Heq. rewrite <- Heq. lia.
Qed.

End RandomMoveLeft.

(** On a well-formed board, after calls of [add_knowledge] that gave
    mine-free cells of the board and the counts of the board: either
    [make_random_move] returns nothing, and then every cell of the board is a
    move made or a known mine, so that the known mines are all the mines of
    the board; or some cell of the board is neither, and [make_random_move]
    returns it as soon as it is drawn. *)
Theorem random_move_nothing_or_findable (g : Minesweeper.t) (cs : list cell) :
  Minesweeper.well_formed g →
  Forall (playable g) cs →
  (fst (make_random_move []
          (run (Minesweeper.height g) (Minesweeper.width g) (map (observation g) cs)))
   = Returned None
   ∧ ∀ c, on_board g c →
          (c ∈ moves_made (run (Minesweeper.height g) (Minesweeper.width g)
                             (map (observation g) cs))
           ∧ Minesweeper.is_mine g c = false)
          ∨ (c ∈ mines (run (Minesweeper.height g) (Minesweeper.width g)
                          (map (observation g) cs))
             ∧ Minesweeper.is_mine g c = true))
  ∨ (∃ c, on_board g c
          ∧ (c ∉ moves_made (run (Minesweeper.height g) (Minesweeper.width g)
                               (map (observation g) cs)))
          ∧ (c ∉ mines (run (Minesweeper.height g) (Minesweeper.width g)
                          (map (observation g) cs)))
          ∧ ∀ draws,
              Forall (rejected (run (Minesweeper.height g) (Minesweeper.width g)
                                  (map (observation g) cs))) draws →
              fst (make_random_move (draws ++ [c])
                     (run (Minesweeper.height g) (Minesweeper.width g)
                        (map (observation g) cs)))
              = Returned (Some c)).
Proof.
  intros Hwf Hcs.
  set (st := run (Minesweeper.height g) (Minesweeper.width g) (map (observation g) cs)).
  set (G := grid_cells (Minesweeper.height g) (Minesweeper.width g)).
  pose proof (left_guard g cs Hwf Hcs) as Hguard. fold st G in Hguard.
  pose proof (sound_run g cs Hcs) as (_ & _ & Hs & Hm & _). fold st in Hs, Hm.
  pose proof (run_moves_subset_safes (Minesweeper.height g) (Minesweeper.width g)
                (map (observation g) cs)) as Hsub. fold st in Hsub.
  destruct (run_dimensions (Minesweeper.height g) (Minesweeper.width g)
              (map (observation g) cs)) as [Hh Hw]. fold st in Hh, Hw.
  destruct (decide (moves_made st ∪ mines st = G)) as [Hall | Hleft].
  - left. split.
    + unfold make_random_move. rewrite (proj2 (Z.eqb_eq _ _) (proj2 Hguard Hall)).
      reflexivity.
    + intros c Hc. assert (c ∈ moves_made st ∪ mines st) as Hin.
      { rewrite Hall. apply elem_of_grid_cells. exact Hc. }
      apply elem_of_union in Hin as [Hin | Hin].
      * left. split; [exact Hin | apply Hs, Hsub, Hin].
      * right. split; [exact Hin | apply Hm, Hin].
  - right.
    destruct (left_within g cs Hcs) as (HmG & _ & HmiG & _). fold st G in HmG, HmiG.
    assert (G ∖ (moves_made st ∪ mines st) ≠ ∅) as Hne.
    { intros Hemp. apply Hleft. apply set_eq. intros x. split.
      - intros Hx. apply elem_of_union in Hx as [Hx | Hx]; auto.
      - intros Hx. destruct (decide (x ∈ moves_made st ∪ mines st)) as [Hin | Hnin];
          [exact Hin |].
        exfalso. assert (x ∈ G ∖ (moves_made st ∪ mines st)) as Hd
          by (apply elem_of_difference; split; assumption).
        rewrite Hemp in Hd. apply elem_of_empty in Hd. exact Hd. }
    apply set_choose_L in Hne as [c Hc].
    apply elem_of_difference in Hc as [HcG Hcn].
    apply elem_of_grid_cells in HcG.
    assert (c ∉ moves_made st) as Hc1 by (intros H; apply Hcn, elem_of_union_l, H).
    assert (c ∉ mines st) as Hc2 by (intros H; apply Hcn, elem_of_union_r, H).
    exists c. split; [exact HcG |]. split; [exact Hc1 |]. split; [exact Hc2 |].
    intros draws Hdraws.
    unfold make_random_move.
    assert ((Z.of_nat (size (moves_made st))
             =? width st * height st - Z.of_nat (size (mines st))) = false) as ->.
    { apply Z.eqb_neq. intros Heq. apply Hleft, Hguard, Heq. }
    assert ((height st <=? 0) || (width st <=? 0) = false) as ->.
    { rewrite Hh, Hw. unfold on_board in HcG. apply orb_false_iff.
      split; apply Z.leb_gt; lia. }
    cbn [fst]. apply random_loop_returns; assumption.
Qed.

Lemma random_move_nothing_or_findable_witness :
  (fst (make_random_move [] (run 1 3 (map (observation board_1x3) [(0, 2)])))
   = Returned None
   ∧ ∀ c, on_board board_1x3 c →
          (c ∈ moves_made (run 1 3 (map (observation board_1x3) [(0, 2)]))
           ∧ Minesweeper.is_mine board_1x3 c = false)
          ∨ (c ∈ mines (run 1 3 (map (observation board_1x3) [(0, 2)]))
             ∧ Minesweeper.is_mine board_1x3 c = true))
  ∨ (∃ c, on_board board_1x3 c
          ∧ (c ∉ moves_made (run 1 3 (map (observation board_1x3) [(0, 2)])))
          ∧ (c ∉ mines (run 1 3 (map (observation board_1x3) [(0, 2)])))
          ∧ ∀ draws,
              Forall (rejected (run 1 3 (map (observation board_1x3) [(0, 2)]))) draws →
              fst (make_random_move (draws ++ [c])
                     (run 1 3 (map (observation board_1x3) [(0, 2)])))
              = Returned (Some c)).
Proof.
  apply (random_move_nothing_or_findable board_1x3 [(0, 2)]).
  - split; [reflexivity | repeat constructor].
  - repeat constructor; cbn; lia.
Defined.

(** ** Marking the cells of a set *)

Section MarkAll.

Lemma sid_mark_mine (c : cell) (s : Sentence.t) :
  Sentence.sid (Sentence.mark_mine c s) = Sentence.sid s.
Proof. unfold Sentence.mark_mine. destruct (bool_decide _); reflexivity. Qed.

Lemma sid_mark_safe (c : cell) (s : Sentence.t) :
  Sentence.sid (Sentence.mark_safe c s) = Sentence.sid s.
Proof. unfold Sentence.mark_safe. destruct (bool_decide _); reflexivity. Qed.

Lemma count_mark_safe (c : cell) (s : Sentence.t) :
  Sentence.count (Sentence.mark_safe c s) = Sentence.count s.
Proof. unfold Sentence.mark_safe. destruct (bool_decide _); reflexivity. Qed.

Lemma count_mark_mine (c : cell) (s : Sentence.t) :
  Sentence.count (Sentence.mark_mine c s)
  = Sentence.count s - Z.of_nat (size (Sentence.cells s ∩ {[c]})).
Proof.
  unfold Sentence.mark_mine.
  destruct (bool_decide_reflect (c ∈ Sentence.cells s)) as [Hin | Hnin];
    cbn [Sentence.count].
  - assert (Sentence.cells s ∩ {[c]} = {[c]}) as -> by set_solver.
    rewrite size_singleton. reflexivity.
  - assert (Sentence.cells s ∩ {[c]} = ∅) as -> by set_solver.
    rewrite size_empty. lia.
Qed.

Lemma sentence_eq (s s' : Sentence.t) :
  Sentence.sid s = Sentence.sid s' → Sentence.cells s = Sentence.cells s' →
  Sentence.count s = Sentence.count s' → s = s'.
Proof. destruct s, s'. cbn. intros -> -> ->. reflexivity. Qed.

(** One sentence, the cells of a list without repetition marked in turn. *)
Lemma sentence_mark_mines (l : list cell) (s : Sentence.t) :
  NoDup l →
  foldl (fun s c => Sentence.mark_mine c s) s l
  = Sentence.mk (Sentence.sid s) (Sentence.cells s ∖ list_to_set l)
      (Sentence.count s - Z.of_nat (size (Sentence.cells s ∩ list_to_set l))).
Proof.
  intros Hl. revert s. induction Hl as [| x l Hx Hl IH]; intros s; cbn [foldl list_to_set].
  - apply sentence_eq; cbn.
    + reflexivity.
    + set_solver.
    + assert (Sentence.cells s ∩ ∅ = ∅) as -> by set_solver. rewrite size_empty. lia.
  - rewrite IH. apply sentence_eq; cbn.
    + apply sid_mark_mine.
    + rewrite cells_mark_mine. set_solver.
    + rewrite count_mark_mine, cells_mark_mine.
      assert (Sentence.cells s ∩ ({[x]} ∪ list_to_set l)
              = (Sentence.cells s ∩ {[x]}) ∪ ((Sentence.cells s ∖ {[x]}) ∩ list_to_set l))
        as -> by set_solver.
      assert (Sentence.cells s ∩ {[x]} ## (Sentence.cells s ∖ {[x]}) ∩ list_to_set l)
        as Hdisj by set_solver.
      rewrite (size_union _ _ Hdisj). lia.
Qed.

Lemma sentence_mark_safes (l : list cell) (s : Sentence.t) :
  foldl (fun s c => Sentence.mark_safe c s) s l
  = Sentence.mk (Sentence.sid s) (Sentence.cells s ∖ list_to_set l) (Sentence.count s).
Proof.
  revert s. induction l as [| x l IH]; intros s; cbn [foldl list_to_set].
  - apply sentence_eq; cbn; [reflexivity | set_solver | reflexivity].
  - rewrite IH. apply sentence_eq; cbn.
    + apply sid_mark_safe.
    + rewrite cells_mark_safe. set_solver.
    + apply count_mark_safe.
Qed.

Lemma agent_mark_mines (l : list cell) (st : MinesweeperAI.t) :
  foldl (fun st c => mark_mine c st) st l
  = mk (height st) (width st) (moves_made st) (list_to_set l ∪ mines st) (safes st)
       (map (fun s => foldl (fun s c => Sentence.mark_mine c s) s l) (knowledge st))
       (next_id st).
Proof.
  revert st. induction l as [| x l IH]; intros st; cbn [foldl list_to_set].
  - destruct st. cbn. f_equal; [set_solver | symmetry; apply map_id].
  - rewrite IH. unfold mark_mine. cbn. f_equal; [set_solver |].
    rewrite map_map. reflexivity.
Qed.

Lemma agent_mark_safes (l : list cell) (st : MinesweeperAI.t) :
  foldl (fun st c => mark_safe c st) st l
  = mk (height st) (width st) (moves_made st) (mines st) (list_to_set l ∪ safes st)
       (map (fun s => foldl (fun s c => Sentence.mark_safe c s) s l) (knowledge st))
       (next_id st).
Proof.
  revert st. induction l as [| x l IH]; intros st; cbn [foldl list_to_set].
  - destruct st. cbn. f_equal; [set_solver | symmetry; apply map_id].
  - rewrite IH. unfold mark_safe. cbn. f_equal; [set_solver |].
    rewrite map_map. reflexivity.
Qed.

End MarkAll.

(** The loop that marks every cell of a set as a mine adds the set to
    [self.mines], takes its cells out of every sentence and lowers the count
    of each sentence by the number of cells taken out; the loop that marks
    them as safe adds the set to [self.safes] and takes the cells out, the
    counts unchanged.  Nothing else changes. *)
Theorem mark_all_closed_form (cs : gset cell) (st : MinesweeperAI.t) :
  mark_all_mines cs st
  = mk (height st) (width st) (moves_made st) (cs ∪ mines st) (safes st)
       (map (fun s => Sentence.mk (Sentence.sid s) (Sentence.cells s ∖ cs)
                        (Sentence.count s - Z.of_nat (size (Sentence.cells s ∩ cs))))
            (knowledge st))
       (next_id st)
  ∧ mark_all_safe cs st
    = mk (height st) (width st) (moves_made st) (mines st) (cs ∪ safes st)
         (map (fun s => Sentence.mk (Sentence.sid s) (Sentence.cells s ∖ cs)
                          (Sentence.count s))
              (knowledge st))
         (next_id st).
Proof.
  unfold mark_all_mines, mark_all_safe. rewrite agent_mark_mines, agent_mark_safes.
  rewrite list_to_set_elements_L. split; f_equal; apply map_ext; intros s.
  - rewrite (sentence_mark_mines _ s (NoDup_elements cs)), list_to_set_elements_L.
    reflexivity.
  - rewrite sentence_mark_safes, list_to_set_elements_L. reflexivity.
Qed.

(** ** clean_knowledge on a knowledge base that needs no cleaning *)

Section CleanKeeps.

Variable k : list Sentence.t.
Hypothesis Hdistinct : NoDup (map Sentence.cells k).
Hypothesis Hnonempty : ∀ s, s ∈ k → Sentence.cells s ≠ ∅.

Lemma same_cells_same_place (i j : nat) (s d : Sentence.t) :
  k !! i = Some s → k !! j = Some d → Sentence.cells s = Sentence.cells d → s = d.
Proof.
  intros Hi Hj Hcells.
  assert (i = j) as ->.
  { eapply (NoDup_lookup _ i j (Sentence.cells s) Hdistinct).
    - rewrite list_lookup_fmap, Hi. reflexivity.
    - rewrite list_lookup_fmap, Hj, Hcells. reflexivity. }
  congruence.
Qed.

Lemma clean_inner_keeps (fuel i j : nat) (s : Sentence.t) :
  k !! i = Some s → clean_inner fuel s j k = k.
Proof.
  intros Hi. revert j. induction fuel as [| fuel IH]; intros j; cbn [clean_inner];
    [reflexivity |].
  destruct (k !! j) as [d |] eqn:Hj; [| reflexivity].
  assert (negb (Sentence.same_object d s)
          && bool_decide (Sentence.cells s = Sentence.cells d) = false) as ->.
  { destruct (bool_decide_reflect (Sentence.cells s = Sentence.cells d)) as [He | _];
      [| apply andb_false_r].
    rewrite (same_cells_same_place i j s d Hi Hj He).
    unfold Sentence.same_object. rewrite Nat.eqb_refl. reflexivity. }
  apply IH.
Qed.

Lemma clean_outer_keeps (fuel i : nat) : clean_outer fuel i k = k.
Proof.
  revert i. induction fuel as [| fuel IH]; intros i; cbn [clean_outer]; [reflexivity |].
  destruct (k !! i) as [s |] eqn:Hi; [| reflexivity].
  assert (Nat.eqb (size (Sentence.cells s)) 0 = false) as ->.
  { apply Nat.eqb_neq. intros Hsz. apply size_empty_iff in Hsz.
    apply (Hnonempty s); [eapply list_elem_of_lookup_2; exact Hi |].
    apply leibniz_equiv. exact Hsz. }
  rewrite (clean_inner_keeps _ i 0 s Hi). apply IH.
Qed.

End CleanKeeps.

(** [clean_knowledge] changes nothing when no sentence of the knowledge base
    is without cells and no two sentences have the same cells. *)
Theorem clean_knowledge_keeps_clean (st : MinesweeperAI.t) :
  NoDup (map Sentence.cells (knowledge st)) →
  (∀ s, s ∈ knowledge st → Sentence.cells s ≠ ∅) →
  clean_knowledge st = st.
Proof.
  intros Hd Hn. unfold clean_knowledge. rewrite (clean_outer_keeps _ Hd Hn).
  destruct st. reflexivity.
Qed.

Lemma clean_knowledge_keeps_clean_witness :
  let k := [Sentence.mk 0 {[ (0, 0); (0, 1) ]} 1;
            Sentence.mk 1 {[ (0, 1); (0, 2) ]} 1;
            Sentence.mk 2 {[ (0, 2) ]} 0] in
  clean_knowledge (with_knowledge k (init 1 3)) = with_knowledge k (init 1 3).
Proof.
  apply clean_knowledge_keeps_clean.
  - cbn [knowledge with_knowledge map Sentence.cells].
    eapply bool_decide_unpack. vm_compute. exact I.
  - cbn [knowledge with_knowledge]. intros s Hs.
    rewrite !elem_of_cons, elem_of_nil in Hs.
    destruct Hs as [-> | [-> | [-> | []]]]; cbn [Sentence.cells];
      eapply bool_decide_unpack; vm_compute; exact I.
Defined.

(** ** The sentence objects of the knowledge base *)

Section Objects.

Lemma reduced_from_refl (s : Sentence.t) : reduced_from s s.
Proof. unfold reduced_from. split; [reflexivity |]. split; [reflexivity | lia]. Qed.

Lemma reduced_from_trans (s1 s2 s3 : Sentence.t) :
  reduced_from s1 s2 → reduced_from s2 s3 → reduced_from s1 s3.
Proof.
  unfold reduced_from. intros (Hi & Hc & Hn) (Hi' & Hc' & Hn').
  split; [congruence |]. split; [etransitivity; eassumption | lia].
Qed.

Lemma reduced_from_mark_safe (c : cell) (s : Sentence.t) :
  reduced_from s (Sentence.mark_safe c s).
Proof.
  unfold reduced_from. rewrite sid_mark_safe, cells_mark_safe, count_mark_safe.
  split; [reflexivity |]. split; [apply subseteq_difference_l; reflexivity | lia].
Qed.

Lemma reduced_from_mark_mine (c : cell) (s : Sentence.t) :
  reduced_from s (Sentence.mark_mine c s).
Proof.
  unfold reduced_from. rewrite sid_mark_mine, cells_mark_mine, count_mark_mine.
  split; [reflexivity |]. split; [apply subseteq_difference_l; reflexivity | lia].
Qed.

Lemma Forall2_reduced_map (f : Sentence.t → Sentence.t) (k0 k : list Sentence.t) :
  (∀ s, reduced_from s (f s)) →
  Forall2 reduced_from k0 k → Forall2 reduced_from k0 (map f k).
Proof.
  intros Hf H. induction H as [| s0 s k0 k Hs _ IH]; cbn [map]; constructor; [| exact IH].
  eapply reduced_from_trans; [exact Hs | apply Hf].
Qed.

Lemma Forall2_reduced_refl (k : list Sentence.t) : Forall2 reduced_from k k.
Proof. induction k; constructor; [apply reduced_from_refl | assumption]. Qed.

Lemma reduced_sweep_at (k0 : list Sentence.t) (st : MinesweeperAI.t) (i : nat) :
  Forall2 reduced_from k0 (knowledge st) →
  Forall2 reduced_from k0 (knowledge (sweep_at st i)).
Proof.
  intros Hst. unfold sweep_at.
  set (st1 := match knowledge st !! i with
              | Some sentence => _
              | None => st
              end).
  assert (Forall2 reduced_from k0 (knowledge st1)) as H1.
  { subst st1. destruct (knowledge st !! i) as [s |]; [| exact Hst].
    destruct (truthy (Sentence.known_safes s)); [| exact Hst].
    apply (foldl_preserves (fun st' => Forall2 reduced_from k0 (knowledge st')));
      [| exact Hst].
    intros st' c _ Hst'. cbn. apply Forall2_reduced_map; [| exact Hst'].
    intros s'. apply reduced_from_mark_safe. }
  destruct (knowledge st1 !! i) as [s |]; [| exact H1].
  destruct (truthy (Sentence.known_mines s)); [| exact H1].
  apply (foldl_preserves (fun st' => Forall2 reduced_from k0 (knowledge st')));
    [| exact H1].
  intros st' c _ Hst'. cbn. apply Forall2_reduced_map; [| exact Hst'].
  intros s'. apply reduced_from_mark_mine.
Qed.

Lemma reduced_sweep (st : MinesweeperAI.t) :
  Forall2 reduced_from (knowledge st) (knowledge (sweep st)).
Proof.
  apply (foldl_preserves (fun st' => Forall2 reduced_from (knowledge st) (knowledge st'))).
  - intros st' i _. apply reduced_sweep_at.
  - apply Forall2_reduced_refl.
Qed.

End Objects.

(** The sweep of lines 225-236 adds and removes no sentence: after it the
    knowledge base has the same sentence objects in the same order, each with
    cells among those it had and a count that is not larger; the moves made
    are the same, and no cell has left the known safe cells or the known
    mines. *)
Theorem sweep_keeps_sentences (st : MinesweeperAI.t) :
  Forall2 reduced_from (knowledge st) (knowledge (sweep st))
  ∧ length (knowledge (sweep st)) = length (knowledge st)
  ∧ moves_made (sweep st) = moves_made st
  ∧ safes st ⊆ safes (sweep st)
  ∧ mines st ⊆ mines (sweep st).
Proof.
  pose proof (reduced_sweep st) as H.
  destruct (grows_sweep st) as (_ & _ & Hm & Hs & Hmi).
  split; [exact H |]. split; [symmetry; exact (Forall2_length _ _ _ H) |].
  split; [exact Hm |]. split; assumption.
Qed.

(** ** Sentences are different objects *)

Section Distinct.

Lemma list_remove_first_sublist (x : Sentence.t) (l : list Sentence.t) :
  list_remove_first x l `sublist_of` l.
Proof.
  induction l as [| e l IH]; cbn [list_remove_first]; [reflexivity |].
  destruct (_ || _); [apply sublist_cons; reflexivity | apply sublist_skip, IH].
Qed.

Lemma clean_inner_sublist (fuel : nat) (s : Sentence.t) (j : nat) (k : list Sentence.t) :
  clean_inner fuel s j k `sublist_of` k.
Proof.
  revert j k. induction fuel as [| fuel IH]; intros j k; cbn [clean_inner];
    [reflexivity |].
  destruct (k !! j) as [d |]; [| reflexivity].
  etransitivity; [apply IH |].
  destruct (_ && _); [apply list_remove_first_sublist | reflexivity].
Qed.

Lemma clean_outer_sublist (fuel : nat) (i : nat) (k : list Sentence.t) :
  clean_outer fuel i k `sublist_of` k.
Proof.
  revert i k. induction fuel as [| fuel IH]; intros i k; cbn [clean_outer];
    [reflexivity |].
  destruct (k !! i) as [s |]; [| reflexivity].
  etransitivity; [apply IH |].
  etransitivity; [apply clean_inner_sublist |].
  destruct (Nat.eqb _ _); [apply list_remove_first_sublist | reflexivity].
Qed.

Lemma distinct_map (f : Sentence.t → Sentence.t) (st st' : MinesweeperAI.t) :
  (∀ s, Sentence.sid (f s) = Sentence.sid s) →
  knowledge st' = map f (knowledge st) → next_id st' = next_id st →
  distinct_objects st → distinct_objects st'.
Proof.
  intros Hf Hk Hn [Hnd Hlt]. unfold distinct_objects. rewrite Hk, Hn, map_map. split.
  - rewrite (map_ext _ Sentence.sid) by exact Hf. exact Hnd.
  - apply Forall_fmap. eapply Forall_impl; [exact Hlt |]. intros s Hs. cbn.
    rewrite Hf. exact Hs.
Qed.

Lemma distinct_mark_safe (c : cell) (st : MinesweeperAI.t) :
  distinct_objects st → distinct_objects (mark_safe c st).
Proof.
  apply (distinct_map (Sentence.mark_safe c)); [apply sid_mark_safe | |]; reflexivity.
Qed.

Lemma distinct_mark_mine (c : cell) (st : MinesweeperAI.t) :
  distinct_objects st → distinct_objects (mark_mine c st).
Proof.
  apply (distinct_map (Sentence.mark_mine c)); [apply sid_mark_mine | |]; reflexivity.
Qed.

Lemma distinct_append (cs : gset cell) (n : Z) (st : MinesweeperAI.t) :
  distinct_objects st → distinct_objects (append_sentence cs n st).
Proof.
  intros [Hnd Hlt]. unfold distinct_objects. cbn. rewrite map_app. cbn. split.
  - apply NoDup_app. split; [exact Hnd |]. split; [| apply NoDup_singleton].
    intros i Hi Hin. apply list_elem_of_singleton in Hin as ->.
    apply list_elem_of_fmap in Hi as (s & Heq & Hs).
    pose proof (proj1 (Forall_forall _ _) Hlt s Hs) as Hlts. cbn in Hlts. lia.
  - apply Forall_app. split.
    + eapply Forall_impl; [exact Hlt |]. intros s Hs. cbn in *. lia.
    + constructor; [cbn; lia | constructor].
Qed.

Lemma distinct_sublist (k : list Sentence.t) (st : MinesweeperAI.t) :
  k `sublist_of` knowledge st → distinct_objects st →
  distinct_objects (with_knowledge k st).
Proof.
  intros Hsub [Hnd Hlt]. unfold distinct_objects. cbn. split.
  - eapply sublist_NoDup; [exact Hnd |].
    exact (fmap_sublist Sentence.sid _ _ Hsub).
  - apply Forall_forall. intros s Hs.
    exact (proj1 (Forall_forall _ _) Hlt s (elem_of_sublist _ _ _ Hs Hsub)).
Qed.

Lemma distinct_sweep_at (st : MinesweeperAI.t) (i : nat) :
  distinct_objects st → distinct_objects (sweep_at st i).
Proof.
  intros Hst. unfold sweep_at.
  set (st1 := match knowledge st !! i with
              | Some sentence => _
              | None => st
              end).
  assert (distinct_objects st1) as H1.
  { subst st1. destruct (knowledge st !! i) as [s |]; [| exact Hst].
    destruct (truthy (Sentence.known_safes s)); [| exact Hst].
    apply (foldl_preserves distinct_objects); [| exact Hst].
    intros st' c _. apply distinct_mark_safe. }
  destruct (knowledge st1 !! i) as [s |]; [| exact H1].
  destruct (truthy (Sentence.known_mines s)); [| exact H1].
  apply (foldl_preserves distinct_objects); [| exact H1].
  intros st' c _. apply distinct_mark_mine.
Qed.

Lemma distinct_add_knowledge (c : cell) (n : Z) (st : MinesweeperAI.t) :
  distinct_objects st → distinct_objects (add_knowledge c n st).
Proof.
  intros Hst.
  assert (distinct_objects (record_move c st)) as H1.
  { unfold record_move. apply distinct_mark_safe. exact Hst. }
  assert (distinct_objects (observe c n st)) as H2.
  { unfold observe.
    set (st2 := if 0 <? n then _ else record_move c st).
    assert (distinct_objects st2) as H2.
    { subst st2. destruct (0 <? n); [apply distinct_append |]; exact H1. }
    destruct (n =? 0); [| exact H2].
    apply (foldl_preserves distinct_objects); [| exact H2].
    intros st' x _ Hst'. destruct (bool_decide (x ∈ safes st')); [exact Hst' |].
    apply distinct_mark_safe. exact Hst'. }
  unfold add_knowledge. destruct (_ <? _)%nat; [exact H2 |].
  apply distinct_sublist; [apply clean_outer_sublist |].
  apply (foldl_preserves distinct_objects).
  - intros st' d _. apply distinct_append.
  - apply (foldl_preserves distinct_objects); [| exact H2].
    intros st' i _. apply distinct_sweep_at.
Qed.

End Distinct.

(** After any calls of [add_knowledge], the sentences of the knowledge base
    are pairwise different objects (no object is in the list twice), and
    [clean_knowledge] keeps the sentences it leaves in the order they had. *)
Theorem sentences_are_distinct_objects :
  (∀ h w obs, distinct_objects (run h w obs))
  ∧ (∀ st, knowledge (clean_knowledge st) `sublist_of` knowledge st).
Proof.
  split.
  - intros h w obs. apply (foldl_preserves distinct_objects).
    + intros st o _. apply distinct_add_knowledge.
    + split; [apply NoDup_nil; exact I | constructor].
  - intros st. apply clean_outer_sublist.
Qed.

(** ** deduce_knowledge adds smaller sentences *)

(** Every sentence that [deduce_knowledge] adds has at least one cell, and its
    cells are some but not all of the cells of a sentence that was in the
    knowledge base; with fewer than two sentences nothing is added. *)
Theorem deduce_knowledge_adds_smaller (st : MinesweeperAI.t) :
  ∃ new : list Sentence.t,
    knowledge (deduce_knowledge st) = knowledge st ++ new
    ∧ Forall (fun s => Sentence.cells s ≠ ∅
                       ∧ ∃ A, A ∈ knowledge st ∧ Sentence.cells s ⊂ Sentence.cells A) new
    ∧ ((length (knowledge st) ≤ 1)%nat → new = []).
Proof.
  unfold deduce_knowledge.
  destruct (append_all_knowledge (deductions (knowledge st)) st) as (new & Hk & Hc).
  exists new. split; [exact Hk |]. split.
  - apply Forall_forall. intros s Hin.
    assert (content s ∈ deductions (knowledge st)) as Hd.
    { rewrite <- Hc. apply list_elem_of_fmap. exists s. split; [reflexivity | exact Hin]. }
    unfold content in Hd.
    apply elem_of_deductions in Hd as (A & B & HA & _ & Hne & [Hsub Hnsub] & Hcs & _).
    rewrite Hcs. split.
    + intros Hemp. apply Hnsub. intros x Hx.
      destruct (decide (x ∈ Sentence.cells B)) as [HB | HB]; [exact HB |].
      exfalso. assert (x ∈ Sentence.cells A ∖ Sentence.cells B) as Hd
        by (apply elem_of_difference; split; assumption).
      rewrite Hemp in Hd. apply elem_of_empty in Hd. exact Hd.
    + exists A. split; [exact HA |]. split.
      * apply subseteq_difference_l. reflexivity.
      * intros Hall. apply set_choose_L in Hne as [x Hx].
        pose proof (Hall x (Hsub x Hx)) as Hd.
        apply elem_of_difference in Hd as [_ Hd]. exact (Hd Hx).
  - intros Hlen.
    assert (deductions (knowledge st) = []) as Hnil.
    { destruct (knowledge st) as [| s [| s' k]]; cbn in Hlen; try lia; [reflexivity |].
      unfold deductions. cbn [flat_map]. unfold deduction.
      rewrite bool_decide_eq_true_2 by reflexivity. reflexivity. }
    rewrite Hnil in Hc. destruct new; [reflexivity | discriminate].
Qed.

(** ** Minesweeper.__init__ *)

Section Construction.

Variables h w : Z.

Lemma board_at_set_mine (board : list (list bool)) (i j x y : Z) :
  Minesweeper.well_formed (Minesweeper.mk h w board) →
  0 ≤ i < h → 0 ≤ j < w → 0 ≤ x < h → 0 ≤ y < w →
  Minesweeper.board_at (Minesweeper.mk h w (set_mine board i j)) x y
  = if bool_decide ((x, y) = (i, j)) then true
    else Minesweeper.board_at (Minesweeper.mk h w board) x y.
Proof.
  intros [Hlen Hrows] Hi Hj Hx Hy. cbn in Hlen, Hrows.
  unfold Minesweeper.board_at, set_mine. cbn [Minesweeper.board].
  destruct (board !! Z.to_nat i) as [row |] eqn:Hrow.
  2: { apply lookup_ge_None in Hrow. lia. }
  assert (Z.of_nat (length row) = w) as Hw.
  { exact (proj1 (Forall_lookup _ _) Hrows _ _ Hrow). }
  destruct (decide (x = i)) as [-> | Hxi].
  - rewrite list_lookup_insert_eq by (apply lookup_lt_Some in Hrow; exact Hrow).
    rewrite Hrow.
    destruct (decide (y = j)) as [-> | Hyj].
    + rewrite list_lookup_insert_eq by lia.
      rewrite bool_decide_eq_true_2 by reflexivity. reflexivity.
    + rewrite list_lookup_insert_ne by lia.
      rewrite bool_decide_eq_false_2 by congruence. reflexivity.
  - rewrite list_lookup_insert_ne by lia.
    rewrite bool_decide_eq_false_2 by congruence. reflexivity.
Qed.

Lemma well_formed_set_mine (board : list (list bool)) (i j : Z) :
  Minesweeper.well_formed (Minesweeper.mk h w board) →
  Minesweeper.well_formed (Minesweeper.mk h w (set_mine board i j)).
Proof.
  intros [Hlen Hrows]. cbn in Hlen, Hrows. unfold Minesweeper.well_formed, set_mine. cbn.
  destruct (board !! Z.to_nat i) as [row |] eqn:Hrow; [| split; assumption].
  split; [rewrite length_insert; exact Hlen |].
  apply Forall_insert; [exact Hrows |]. rewrite length_insert.
  exact (proj1 (Forall_lookup _ _) Hrows _ _ Hrow).
Qed.

Lemma well_formed_empty_board :
  0 ≤ h → 0 ≤ w → Minesweeper.well_formed (Minesweeper.mk h w (empty_board h w)).
Proof.
  intros Hh Hw. unfold Minesweeper.well_formed, empty_board. cbn. split.
  - rewrite length_map, length_range. lia.
  - apply Forall_fmap, Forall_forall. intros i _. cbn.
    rewrite length_map, length_range. lia.
Qed.

Lemma board_at_empty_board (i j : Z) :
  Minesweeper.board_at (Minesweeper.mk h w (empty_board h w)) i j = false.
Proof.
  unfold Minesweeper.board_at, empty_board. cbn [Minesweeper.board].
  rewrite list_lookup_fmap. destruct (range 0 h !! Z.to_nat i); cbn; [| reflexivity].
  rewrite list_lookup_fmap. destruct (range 0 w !! Z.to_nat j); reflexivity.
Qed.

Lemma board_agrees_empty : 0 ≤ h → 0 ≤ w → board_agrees h w (empty_board h w) ∅.
Proof.
  intros Hh Hw. split; [apply well_formed_empty_board; assumption |].
  split; [apply empty_subseteq |].
  intros i j _ _. rewrite board_at_empty_board. split; [discriminate |].
  intros H. apply elem_of_empty in H. contradiction.
Qed.

Lemma board_agrees_set_mine (board : list (list bool)) (placed : gset cell) (i j : Z) :
  0 ≤ i < h → 0 ≤ j < w → board_agrees h w board placed →
  board_agrees h w (set_mine board i j) ({[(i, j)]} ∪ placed).
Proof.
  intros Hi Hj (Hwf & Hsub & Hag). split; [apply well_formed_set_mine, Hwf |]. split.
  - apply union_least; [| exact Hsub].
    intros c Hc. apply elem_of_singleton in Hc as ->. apply elem_of_grid_cells. cbn. lia.
  - intros x y Hx Hy. rewrite (board_at_set_mine board i j x y Hwf Hi Hj Hx Hy).
    rewrite elem_of_union, elem_of_singleton.
    destruct (bool_decide_reflect ((x, y) = (i, j))) as [He | Hne].
    + split; [intros _; left; exact He | reflexivity].
    + rewrite (Hag x y Hx Hy). split; [intros H; right; exact H |].
      intros [H | H]; [contradiction | exact H].
Qed.

(** The rounds of the loop keep the board and the set of mines in step. *)
Lemma place_mines_built (m : Z) (draws : list cell) (board : list (list bool))
    (placed : gset cell) (g : Minesweeper.t) (ms : gset cell) :
  Forall (fun d => 0 ≤ fst d < h ∧ 0 ≤ snd d < w) draws →
  board_agrees h w board placed →
  place_mines h w m board placed draws = Built g ms →
  Minesweeper.height g = h ∧ Minesweeper.width g = w
  ∧ board_agrees h w (Minesweeper.board g) ms
  ∧ Z.of_nat (size ms) = m ∧ placed ⊆ ms.
Proof.
  intros Hdraws. revert board placed.
  induction Hdraws as [| [i j] draws [Hi Hj] _ IH]; intros board placed Hag;
    cbn [place_mines]; destruct (Z.eqb_spec (Z.of_nat (size placed)) m) as [Hm | Hm].
  - intros [= <- <-]. cbn. auto.
  - destruct (_ || _); discriminate.
  - intros [= <- <-]. cbn. auto.
  - destruct (_ || _); [discriminate |]. cbn [fst snd] in Hi, Hj.
    destruct (Minesweeper.board_at (Minesweeper.mk h w board) i j).
    + apply IH. exact Hag.
    + intros Hres.
      destruct (IH _ _ (board_agrees_set_mine board placed i j Hi Hj Hag) Hres)
        as (H1 & H2 & H3 & H4 & H5).
      repeat (split; [assumption |]).
      etransitivity; [apply union_subseteq_r | exact H5].
Qed.

(** The loop does not end while the number of mines asked for is not the
    number of mines placed. *)
Lemma place_mines_not_built (m : Z) (draws : list cell) (board : list (list bool))
    (placed : gset cell) :
  Forall (fun d => 0 ≤ fst d < h ∧ 0 ≤ snd d < w) draws →
  board_agrees h w board placed → 0 ≤ h → 0 ≤ w →
  m < 0 ∨ h * w < m →
  place_mines h w m board placed draws = BuildRaised
  ∨ place_mines h w m board placed draws = BuildPending.
Proof.
  intros Hdraws Hag0 Hh Hw Hm. revert board placed Hag0.
  assert (∀ board placed, board_agrees h w board placed →
                          (Z.of_nat (size placed) =? m) = false) as Hguard.
  { intros board placed (_ & Hsub & _). apply Z.eqb_neq.
    apply subseteq_size in Hsub.
    pose proof (size_grid_cells h w Hh (or_intror Hw)). lia. }
  induction Hdraws as [| [i j] draws [Hi Hj] _ IH]; intros board placed Hag;
    cbn [place_mines]; rewrite (Hguard board placed Hag).
  - destruct (_ || _); [left | right]; reflexivity.
  - destruct (_ || _); [left; reflexivity |]. cbn [fst snd] in Hi, Hj.
    destruct (Minesweeper.board_at (Minesweeper.mk h w board) i j).
    + apply IH, Hag.
    + apply IH, board_agrees_set_mine; assumption.
Qed.

End Construction.

(** When the constructor returns, the game has the dimensions asked for, a
    board of [height] rows of [width] cells, and exactly [mines] mines: the set
    [self.mines] has [mines] cells, all on the board, and a cell of the board
    holds a mine exactly when it is in the set.  The new game, with no mine
    found yet, is won exactly when no mine was asked for. *)
Theorem init_places_mines (h w m : Z) (draws : list cell) (g : Minesweeper.t)
    (ms : gset cell) :
  0 ≤ h → 0 ≤ w →
  Forall (fun d => 0 ≤ fst d < h ∧ 0 ≤ snd d < w) draws →
  minesweeper_init h w m draws = Built g ms →
  Minesweeper.height g = h ∧ Minesweeper.width g = w
  ∧ Minesweeper.well_formed g
  ∧ Z.of_nat (size ms) = m
  ∧ (∀ c, c ∈ ms → on_board g c)
  ∧ (∀ c, on_board g c → (Minesweeper.is_mine g c = true ↔ c ∈ ms))
  ∧ (won ∅ ms = true ↔ m = 0).
Proof.
  intros Hh Hw Hdraws Hres. unfold minesweeper_init in Hres.
  destruct (place_mines_built h w m draws _ _ g ms Hdraws (board_agrees_empty h w Hh Hw) Hres)
    as (Hgh & Hgw & (Hwf & Hsub & Hag) & Hsize & _).
  split; [exact Hgh |]. split; [exact Hgw |].
  assert (g = Minesweeper.mk h w (Minesweeper.board g)) as Hg
    by (destruct g; cbn in *; congruence).
  split; [rewrite Hg; exact Hwf |]. split; [exact Hsize |]. split; [| split].
  - intros c Hc. apply Hsub, elem_of_grid_cells in Hc. unfold on_board.
    rewrite Hgh, Hgw. exact Hc.
  - intros [i j] [Hi Hj]. cbn in Hi, Hj. rewrite Hgh in Hi. rewrite Hgw in Hj.
    unfold Minesweeper.is_mine. cbn [fst snd]. rewrite Hg. apply Hag; assumption.
  - unfold won. rewrite bool_decide_eq_true. split.
    + intros <-. rewrite size_empty in Hsize. lia.
    + intros ->. symmetry. apply leibniz_equiv, size_empty_iff. lia.
Qed.

Lemma init_places_mines_witness :
  Minesweeper.height (Minesweeper.mk 1 2 [ [false; true] ]) = 1
  ∧ Minesweeper.width (Minesweeper.mk 1 2 [ [false; true] ]) = 2
  ∧ Minesweeper.well_formed (Minesweeper.mk 1 2 [ [false; true] ])
  ∧ Z.of_nat (size ({[ (0, 1) ]} : gset cell)) = 1
  ∧ (∀ c, c ∈ ({[ (0, 1) ]} : gset cell) → on_board (Minesweeper.mk 1 2 [ [false; true] ]) c)
  ∧ (∀ c, on_board (Minesweeper.mk 1 2 [ [false; true] ]) c →
          (Minesweeper.is_mine (Minesweeper.mk 1 2 [ [false; true] ]) c = true
           ↔ c ∈ ({[ (0, 1) ]} : gset cell)))
  ∧ (won ∅ {[ (0, 1) ]} = true ↔ 1 = 0).
Proof.
  apply (init_places_mines 1 2 1 [(0, 1)]).
  - lia.
  - lia.
  - repeat constructor; cbn; lia.
  - vm_compute. reflexivity.
Defined.

(** The edges of the constructor.  With [mines = 0] it returns at once the
    board without mines and the empty set, and uses no draw.  With a negative
    number of mines, or more mines than the board has cells, it never
    returns: the loop is still running after any draws (or [randrange] has
    raised ValueError, when the board has no cell). *)
Theorem init_edge_cases (h w m : Z) (draws : list cell) :
  0 ≤ h → 0 ≤ w →
  Forall (fun d => 0 ≤ fst d < h ∧ 0 ≤ snd d < w) draws →
  (m = 0 → minesweeper_init h w m draws
           = Built (Minesweeper.mk h w (empty_board h w)) ∅)
  ∧ (m < 0 ∨ h * w < m →
     minesweeper_init h w m draws = BuildRaised
     ∨ minesweeper_init h w m draws = BuildPending).
Proof.
  intros Hh Hw Hdraws. split.
  - intros ->. unfold minesweeper_init. destruct draws; reflexivity.
  - intros Hm. apply place_mines_not_built; try assumption.
    apply board_agrees_empty; assumption.
Qed.

Lemma init_edge_cases_witness :
  (3 = 0 → minesweeper_init 1 2 3 [(0, 1); (0, 0); (0, 1)]
           = Built (Minesweeper.mk 1 2 (empty_board 1 2)) ∅)
  ∧ (3 < 0 ∨ 1 * 2 < 3 →
     minesweeper_init 1 2 3 [(0, 1); (0, 0); (0, 1)] = BuildRaised
     ∨ minesweeper_init 1 2 3 [(0, 1); (0, 0); (0, 1)] = BuildPending).
Proof.
  apply (init_edge_cases 1 2 3 [(0, 1); (0, 0); (0, 1)]).
  - lia.
  - lia.
  - repeat constructor; cbn; lia.
Defined.

Section CanFinish.

Variables h w : Z.

(** Draws of cells that hold no mine yet, all different: each round places
    a mine. *)
Lemma place_mines_fresh_draws (m : Z) (draws : list cell) (board : list (list bool))
    (placed : gset cell) :
  NoDup draws →
  Forall (fun d => (0 ≤ fst d < h ∧ 0 ≤ snd d < w) ∧ d ∉ placed) draws →
  board_agrees h w board placed →
  Z.of_nat (size placed) + Z.of_nat (length draws) = m →
  ∃ g ms, place_mines h w m board placed draws = Built g ms.
Proof.
  intros Hnd. revert board placed.
  induction Hnd as [| [i j] draws Hnotin Hnd IH]; intros board placed Hall Hag Hm;
    cbn [place_mines].
  - cbn in Hm. rewrite (proj2 (Z.eqb_eq _ _)) by lia. eauto.
  - apply Forall_cons in Hall as [[[Hi Hj] Hfresh] Hall]. cbn [fst snd] in Hi, Hj.
    cbn [length] in Hm.
    rewrite (proj2 (Z.eqb_neq _ _)) by lia.
    assert ((h <=? 0) || (w <=? 0) = false) as ->
      by (apply orb_false_iff; split; apply Z.leb_gt; lia).
    destruct Hag as (Hwf & Hsub & Hag).
    destruct (Minesweeper.board_at (Minesweeper.mk h w board) i j) eqn:Hat.
    { exfalso. apply Hfresh, (Hag i j Hi Hj), Hat. }
    apply IH.
    + apply Forall_forall. intros d Hd.
      destruct (proj1 (Forall_forall _ _) Hall d Hd) as [Hb Hnp].
      split; [exact Hb |]. intros Hin. apply elem_of_union in Hin as [Hin | Hin].
      * apply elem_of_singleton in Hin as ->. exact (Hnotin Hd).
      * exact (Hnp Hin).
    + apply board_agrees_set_mine; [assumption | assumption |].
      split; [exact Hwf |]. split; assumption.
    + assert ({[(i, j)]} ## placed) as Hdisj.
      { intros x Hx Hp. apply elem_of_singleton in Hx as ->. exact (Hfresh Hp). }
      rewrite (size_union _ _ Hdisj), size_singleton. lia.
Qed.

End CanFinish.

(** The constructor can return for every number of mines from 0 to the
    number of cells of the board: there are draws, all inside the board, with
    which it returns. *)
Theorem init_can_finish (h w m : Z) :
  0 ≤ h → 0 ≤ w → 0 ≤ m ≤ h * w →
  ∃ draws g ms,
    Forall (fun d => 0 ≤ fst d < h ∧ 0 ≤ snd d < w) draws
    ∧ minesweeper_init h w m draws = Built g ms.
Proof.
  intros Hh Hw Hm.
  set (all := flat_map (fun i => map (fun j => (i, j)) (range 0 w)) (range 0 h)
              : list cell).
  assert (NoDup all) as Hnd by (apply NoDup_pairs; apply NoDup_range).
  assert (∀ d, d ∈ all → 0 ≤ fst d < h ∧ 0 ≤ snd d < w) as Hin.
  { intros d Hd. apply elem_of_grid_cells. unfold grid_cells.
    apply elem_of_list_to_set. exact Hd. }
  assert (Z.of_nat (length all) = h * w) as Hlen.
  { subst all. rewrite length_pairs, !length_range. nia. }
  set (draws := take (Z.to_nat m) all : list cell).
  assert (draws `sublist_of` all) as Hsub by apply sublist_take.
  assert (Forall (fun d => 0 ≤ fst d < h ∧ 0 ≤ snd d < w) draws) as Hdraws.
  { apply Forall_forall. intros d Hd. apply Hin. exact (elem_of_sublist _ _ _ Hd Hsub). }
  destruct (place_mines_fresh_draws h w m draws (empty_board h w) ∅) as (g & ms & Hres).
  - exact (sublist_NoDup _ _ Hnd Hsub).
  - apply Forall_forall. intros d Hd. split.
    + exact (proj1 (Forall_forall _ _) Hdraws d Hd).
    + intros He. apply elem_of_empty in He. exact He.
  - apply board_agrees_empty; assumption.
  - assert (Z.to_nat m ≤ length all)%nat as Hle by (clear - Hlen Hm; lia).
    rewrite size_empty. subst draws. rewrite (length_take_le _ _ Hle).
    clear - Hm. lia.
  - exists draws, g, ms. split; [exact Hdraws | exact Hres].
Qed.

Lemma init_can_finish_witness :
  ∃ draws g ms,
    Forall (fun d => 0 ≤ fst d < 2 ∧ 0 ≤ snd d < 2) draws
    ∧ minesweeper_init 2 2 3 draws = Built g ms.
Proof. apply (init_can_finish 2 2 3); lia. Defined.

(** ** Minesweeper.print *)

Section Print.

Variable g : Minesweeper.t.

Lemma string_length_append (s t : string) :
  String.length (String.append s t) = (String.length s + String.length t)%nat.
Proof.
  induction s as [| a s IH]; simpl; [reflexivity | f_equal; exact IH].
Qed.

Lemma repeat_string_length (s : string) (n : nat) :
  String.length (repeat_string s n) = (n * String.length s)%nat.
Proof.
  induction n as [| n IH]; cbn [repeat_string]; [reflexivity |].
  rewrite string_length_append, IH. lia.
Qed.

Lemma rule_line_length :
  String.length (rule_line g) = (2 * Z.to_nat (Minesweeper.width g) + 1)%nat.
Proof.
  unfold rule_line. rewrite string_length_append, repeat_string_length. cbn. lia.
Qed.

Lemma lookup_range (lo hi : Z) (k : nat) :
  (k < Z.to_nat (hi - lo))%nat → range lo hi !! k = Some (lo + Z.of_nat k).
Proof.
  intros Hk. unfold range. rewrite list_lookup_fmap, lookup_seq_lt by exact Hk.
  reflexivity.
Qed.

(** A row of cells, for any list of columns. *)
Lemma row_cells_length (i : Z) (cols : list Z) :
  String.length
    (foldr (fun j rest =>
              String.append (if Minesweeper.board_at g i j then "|X" else "| ") rest)
           "|"%string cols)
  = (2 * length cols + 1)%nat.
Proof.
  induction cols as [| j cols IH]; cbn [foldr length]; [reflexivity |].
  rewrite string_length_append, IH. destruct (Minesweeper.board_at g i j); cbn; lia.
Qed.

Lemma row_cells_get (i : Z) (cols : list Z) (k : nat) (j : Z) :
  cols !! k = Some j →
  String.get (2 * k + 1)
    (foldr (fun j rest =>
              String.append (if Minesweeper.board_at g i j then "|X" else "| ") rest)
           "|"%string cols)
  = Some (if Minesweeper.board_at g i j then "X"%char else " "%char).
Proof.
  revert k. induction cols as [| j0 cols IH]; intros k Hk; [discriminate |].
  cbn [foldr]. destruct k as [| k].
  - cbn in Hk. injection Hk as ->. destruct (Minesweeper.board_at g i j); reflexivity.
  - cbn in Hk. replace (2 * S k + 1)%nat with (S (S (2 * k + 1))) by lia.
    destruct (Minesweeper.board_at g i j0); cbn [String.append String.get];
      apply IH, Hk.
Qed.

Lemma lines_length (rows : list Z) :
  length (foldr (fun i rest => rule_line g :: row_line g i :: rest) [rule_line g] rows)
  = (2 * length rows + 1)%nat.
Proof.
  induction rows as [| i rows IH]; cbn [foldr length]; [reflexivity |].
  rewrite IH. lia.
Qed.

Lemma lines_lookup_row (rows : list Z) (k : nat) (i : Z) :
  rows !! k = Some i →
  foldr (fun i rest => rule_line g :: row_line g i :: rest) [rule_line g] rows
    !! (2 * k + 1)%nat
  = Some (row_line g i).
Proof.
  revert k. induction rows as [| i0 rows IH]; intros k Hk; [discriminate |].
  cbn [foldr]. destruct k as [| k].
  - cbn in Hk. injection Hk as ->. reflexivity.
  - cbn in Hk. replace (2 * S k + 1)%nat with (S (S (2 * k + 1))) by lia.
    cbn [lookup list_lookup]. apply IH, Hk.
Qed.

Lemma lines_lookup_rule (rows : list Z) (k : nat) :
  (k ≤ length rows)%nat →
  foldr (fun i rest => rule_line g :: row_line g i :: rest) [rule_line g] rows
    !! (2 * k)%nat
  = Some (rule_line g).
Proof.
  revert k. induction rows as [| i0 rows IH]; intros k Hk; cbn [foldr].
  - cbn in Hk. replace k with 0%nat by lia. reflexivity.
  - destruct k as [| k]; [reflexivity |].
    replace (2 * S k)%nat with (S (S (2 * k))) by lia.
    cbn [lookup list_lookup]. apply IH. cbn in Hk. lia.
Qed.

Lemma lines_all_length (rows : list Z) (n : nat) :
  (∀ i, String.length (row_line g i) = n) → String.length (rule_line g) = n →
  Forall (fun line => String.length line = n)
         (foldr (fun i rest => rule_line g :: row_line g i :: rest) [rule_line g] rows).
Proof.
  intros Hrow Hrule. induction rows as [| i rows IH]; cbn [foldr].
  - constructor; [exact Hrule | constructor].
  - constructor; [exact Hrule |]. constructor; [apply Hrow | exact IH].
Qed.

End Print.

(** [print] writes [2 * height + 1] lines, each of [2 * width + 1]
    characters; the lines at the even places are the rule of dashes, and the
    line after the rule number [i] shows the row [i] of the board: its
    character at the place [2 * j + 1] is [X] when the cell [(i, j)] holds a
    mine and a blank when it does not. *)
Theorem print_shows_board (g : Minesweeper.t) :
  length (print_lines g) = (2 * Z.to_nat (Minesweeper.height g) + 1)%nat
  ∧ Forall (fun line => String.length line = (2 * Z.to_nat (Minesweeper.width g) + 1)%nat)
           (print_lines g)
  ∧ (∀ k, (k ≤ Z.to_nat (Minesweeper.height g))%nat →
          print_lines g !! (2 * k)%nat = Some (rule_line g))
  ∧ (∀ i j, 0 ≤ i < Minesweeper.height g → 0 ≤ j < Minesweeper.width g →
            ∃ line, print_lines g !! (2 * Z.to_nat i + 1)%nat = Some line
                    ∧ String.get (2 * Z.to_nat j + 1) line
                      = Some (if Minesweeper.board_at g i j
                              then "X"%char else " "%char)).
Proof.
  unfold print_lines. split; [| split; [| split]].
  - rewrite lines_length, length_range. f_equal. f_equal. f_equal. lia.
  - apply lines_all_length; [| apply rule_line_length].
    intros i. unfold row_line. rewrite row_cells_length, length_range.
    f_equal. f_equal. f_equal. lia.
  - intros k Hk. apply lines_lookup_rule. rewrite length_range.
    replace (Minesweeper.height g - 0) with (Minesweeper.height g) by lia. exact Hk.
  - intros i j Hi Hj. exists (row_line g i). split.
    + apply lines_lookup_row. rewrite lookup_range by lia. f_equal. lia.
    + unfold row_line. apply row_cells_get. rewrite lookup_range by lia. f_equal. lia.
Qed.

(** ** The inferences on one sentence *)

(** For a sentence that is true of the board (exactly [count] of its cells
    hold a mine): the cells that [known_safes] returns hold no mine, those that
    [known_mines] returns hold a mine; [mark_safe] with a cell without a mine
    and [mark_mine] with a cell with a mine leave a true sentence; and the
    sentence that [deduce_knowledge] builds from it and a true sentence with
    cells among its cells is true. *)
Theorem sentence_inference_sound (g : Minesweeper.t) (s : Sentence.t) :
  holds g s →
  (∀ c, c ∈ default ∅ (Sentence.known_safes s) → Minesweeper.is_mine g c = false)
  ∧ (∀ c, c ∈ default ∅ (Sentence.known_mines s) → Minesweeper.is_mine g c = true)
  ∧ (∀ c, Minesweeper.is_mine g c = false → holds g (Sentence.mark_safe c s))
  ∧ (∀ c, Minesweeper.is_mine g c = true → holds g (Sentence.mark_mine c s))
  ∧ (∀ B i, holds g B → Sentence.cells B ⊆ Sentence.cells s →
            holds g (Sentence.mk i (Sentence.cells s ∖ Sentence.cells B)
                       (Sentence.count s - Sentence.count B))).
Proof.
  intros Hs.
  split; [intros c; apply known_safes_sound, Hs |].
  split; [intros c; apply known_mines_sound, Hs |].
  split; [intros c Hc; apply holds_mark_safe; assumption |].
  split; [intros c Hc; apply holds_mark_mine; assumption |].
  intros B i HB Hsub. apply holds_deduction; assumption.
Qed.

Lemma sentence_inference_sound_witness :
  (∀ c, c ∈ default ∅ (Sentence.known_safes (Sentence.mk 0 {[ (0, 1) ]} 1)) →
        Minesweeper.is_mine board_1x2 c = false)
  ∧ (∀ c, c ∈ default ∅ (Sentence.known_mines (Sentence.mk 0 {[ (0, 1) ]} 1)) →
          Minesweeper.is_mine board_1x2 c = true)
  ∧ (∀ c, Minesweeper.is_mine board_1x2 c = false →
          holds board_1x2 (Sentence.mark_safe c (Sentence.mk 0 {[ (0, 1) ]} 1)))
  ∧ (∀ c, Minesweeper.is_mine board_1x2 c = true →
          holds board_1x2 (Sentence.mark_mine c (Sentence.mk 0 {[ (0, 1) ]} 1)))
  ∧ (∀ B i, holds board_1x2 B →
            Sentence.cells B ⊆ Sentence.cells (Sentence.mk 0 {[ (0, 1) ]} 1) →
            holds board_1x2
              (Sentence.mk i
                 (Sentence.cells (Sentence.mk 0 {[ (0, 1) ]} 1) ∖ Sentence.cells B)
                 (Sentence.count (Sentence.mk 0 {[ (0, 1) ]} 1) - Sentence.count B))).
Proof.
  apply (sentence_inference_sound board_1x2 (Sentence.mk 0 {[ (0, 1) ]} 1)).
  vm_compute. reflexivity.
Defined.
